(** * pandasai.llm.base: the LLM base classes

    A shallow embedding of [src/pandasai/llm/base.py]: the helpers of class
    [LLM] that turn a model response into code ([_polish_code],
    [_is_python_code], [_extract_code], [generate_code]), the prompt helper
    [prepend_system_prompt], and the parameter handling of class
    [BaseGoogle] ([_set_params], [_validate], [call]).

    Python values are modelled as the code has them: a [str] is a sequence
    of Unicode code points, an exception is a value of an error type and a
    method that can raise returns a [result], a [**kwargs] dictionary is a
    finite map, and the adapter object is a record that is passed through
    the methods that assign its attributes. *)

From Stdlib Require Import ZArith NArith QArith Ascii String.
From stdpp Require Import base tactics option list gmap strings.

Local Open Scope nat_scope.

(* ===================================================================== *)
(** * Python strings *)
(* ===================================================================== *)

Module Str.

(** A Python [str]: the list of its code points. *)
Abbreviation str := (list N).

(** A literal, written as a Rocq string of one-byte characters. *)
Fixpoint py (s : string) : str :=
  match s with
  | EmptyString => []
  | String c s' => Ascii.N_of_ascii c :: py s'
  end.

Definition LF : N := 10%N.
Definition BACKTICK : N := 96%N.

(** [str.isspace] on one code point: the characters that [str.strip()]
    removes (Unicode white space, which includes the ASCII separators
    0x1c-0x1f). *)
Definition isspace (c : N) : bool :=
  ((9 <=? c) && (c <=? 13) || (28 <=? c) && (c <=? 32)
   || (c =? 133) || (c =? 160) || (c =? 5760)
   || (8192 <=? c) && (c <=? 8202)
   || (c =? 8232) || (c =? 8233) || (c =? 8239) || (c =? 8287)
   || (c =? 12288))%N.

Fixpoint lstrip (s : str) : str :=
  match s with
  | [] => []
  | c :: s' => if isspace c then lstrip s' else s
  end.

Definition rstrip (s : str) : str := reverse (lstrip (reverse s)).

(** [s.strip()] *)
Definition strip (s : str) : str := rstrip (lstrip s).

(** [s.startswith(p)] *)
Fixpoint startswith (p s : str) : bool :=
  match p, s with
  | [], _ => true
  | _ :: _, [] => false
  | a :: p', b :: s' => (a =? b)%N && startswith p' s'
  end.

(** [s.find(sep)]: the lowest index at which [sep] occurs in [s]. *)
Fixpoint find (sep s : str) : option nat :=
  if startswith sep s then Some 0
  else match s with
       | [] => None
       | _ :: s' => S <$> find sep s'
       end.

(** [sep in s] *)
Definition contains (sep s : str) : bool := bool_decide (is_Some (find sep s)).

(** The loop of [s.split(sep)] for a non-empty [sep]: cut at the lowest
    occurrence, go on after it.  [n] bounds the number of cuts. *)
Fixpoint split_loop (n : nat) (sep s : str) : list str :=
  match n with
  | 0 => [s]
  | S n' =>
      match find sep s with
      | None => [s]
      | Some i => take i s :: split_loop n' sep (drop (i + length sep) s)
      end
  end.

(** [s.split(sep)]; Python raises [ValueError("empty separator")] when
    [sep] is empty, which is [None] here. *)
Definition split (sep s : str) : option (list str) :=
  match sep with
  | [] => None
  | _ :: _ => Some (split_loop (length s) sep s)
  end.

(** [s.count(sep)] for a non-empty [sep]: the occurrences that [split]
    cuts at. *)
Definition count (sep s : str) : nat := length (split_loop (length s) sep s) - 1.

End Str.
Export Str.

(* ===================================================================== *)
(** * The [re] module, for the patterns this code uses *)
(* ===================================================================== *)

Module Re.

(** A compiled pattern.  The constructs are those of the patterns in
    [_polish_code]; flags are the default ones (no MULTILINE, no DOTALL). *)
Inductive regex : Type :=
  | Eps                          (* the empty pattern *)
  | Bol                          (* ^ *)
  | Eol                          (* $ *)
  | Chr (c : N)                  (* a literal character *)
  | Any                          (* . : any character but a newline *)
  | Seq (r1 r2 : regex)          (* r1 r2 *)
  | Alt (r1 r2 : regex)          (* r1|r2, the left branch first *)
  | Star (r : regex)             (* r*, greedy *)
  | Group (g : nat) (r : regex). (* (r), capturing group number g *)

(** A literal word. *)
Fixpoint lit (w : str) : regex :=
  match w with
  | [] => Eps
  | c :: w' => Seq (Chr c) (lit w')
  end.

(** The matcher's state: the current position in the subject string and
    the spans of the groups matched so far. *)
Record mstate : Type := MState { pos : nat; groups : gmap nat (nat * nat) }.

Definition advance (st : mstate) : mstate := MState (S (pos st)) (groups st).
Definition set_group (g : nat) (b e : nat) (st : mstate) : mstate :=
  MState (pos st) (<[g := (b, e)]> (groups st)).

(** [$]: the end of the string, or just before a newline that ends it. *)
Definition at_eol (s : str) (p : nat) : bool :=
  (p =? length s) || ((S p =? length s) && bool_decide (s !! p = Some LF)).

(** The loop of a greedy star around the matcher [body]: one more
    round that moves forward is preferred to stopping; [n] bounds the
    number of rounds. *)
Fixpoint star_loop (body : mstate -> (mstate -> option mstate) -> option mstate)
    (k : mstate -> option mstate) (n : nat) (st : mstate) : option mstate :=
  match n with
  | 0 => k st
  | S n' =>
      match body st (fun st' =>
              if pos st <? pos st' then star_loop body k n' st' else None) with
      | Some m => Some m
      | None => k st
      end
  end.

(** The backtracking matcher: [run s r st k] matches [r] at [st] and
    hands every way of doing so, in the engine's order of preference, to
    the continuation [k] until [k] succeeds. *)
Fixpoint run (s : str) (r : regex) (st : mstate)
    (k : mstate -> option mstate) : option mstate :=
  match r with
  | Eps => k st
  | Bol => if pos st =? 0 then k st else None
  | Eol => if at_eol s (pos st) then k st else None
  | Chr c =>
      match s !! pos st with
      | Some c' => if (c =? c')%N then k (advance st) else None
      | None => None
      end
  | Any =>
      match s !! pos st with
      | Some c' => if (c' =? LF)%N then None else k (advance st)
      | None => None
      end
  | Seq r1 r2 => run s r1 st (fun st' => run s r2 st' k)
  | Alt r1 r2 =>
      match run s r1 st k with
      | Some m => Some m
      | None => run s r2 st k
      end
  | Star r' => star_loop (run s r') k (length s - pos st) st
  | Group g r' =>
      run s r' st (fun st' => k (set_group g (pos st) (pos st') st'))
  end.

(** One match attempt at position [p].  With [must_advance] an empty
    match is refused (the engine backtracks for another one). *)
Definition match_at (s : str) (r : regex) (p : nat) (must_advance : bool)
    : option mstate :=
  run s r (MState p ∅)
      (fun st => if must_advance && (pos st =? p) then None else Some st).

(** [re.match(r, s)]: a match at the start of [s]; the result is the end
    of the match and its groups. *)
Definition re_match (r : regex) (s : str) : option mstate := match_at s r 0 false.

(** The engine's search: try [p], then each later position up to the end
    of the string; [must_advance] holds for the first attempt only. *)
Fixpoint search_loop (s : str) (r : regex) (n p : nat) (must_advance : bool)
    : option (nat * mstate) :=
  match match_at s r p must_advance with
  | Some st => Some (p, st)
  | None =>
      match n with
      | 0 => None
      | S n' => search_loop s r n' (S p) false
      end
  end.

Definition search_from (s : str) (r : regex) (start : nat) (must_advance : bool)
    : option (nat * mstate) :=
  search_loop s r (length s - start) start must_advance.

(** A replacement template: literal text and group references. *)
Inductive titem : Type := TLit (w : str) | TGroup (g : nat).

Definition substr (s : str) (b e : nat) : str := take (e - b) (drop b s).

Definition expand (t : list titem) (s : str) (st : mstate) : str :=
  concat (map (fun it =>
                 match it with
                 | TLit w => w
                 | TGroup g =>
                     match groups st !! g with
                     | Some (b, e) => substr s b e
                     | None => []
                     end
                 end) t).

(** The loop of [re.sub]: [i] is the index up to which the subject has
    been copied, [start] where the next search begins. *)
Fixpoint sub_loop (fuel : nat) (r : regex) (t : list titem) (s : str)
    (i start : nat) (must_advance : bool) : str :=
  match fuel with
  | 0 => drop i s
  | S fuel' =>
      match search_from s r start must_advance with
      | None => drop i s
      | Some (b, st) =>
          substr s i b ++ expand t s st
            ++ sub_loop fuel' r t s (pos st) (pos st) (pos st =? b)
      end
  end.

(** [re.sub(r, t, s)] *)
Definition re_sub (r : regex) (t : list titem) (s : str) : str :=
  sub_loop (2 * length s + 2) r t s 0 0 false.

End Re.
Export Re.

(* ===================================================================== *)
(** * Exceptions and results *)
(* ===================================================================== *)

(** The exceptions this module raises or lets through. *)
Inductive exn : Type :=
  | APIKeyNotFoundError (msg : str)
  | MethodNotImplementedError (msg : str)
  | NoCodeFoundError (msg : str)
  | ValueError (msg : str)
  | IndexError (msg : str)
  | SyntaxError (msg : str)
  | OtherError (cls msg : str).   (* any other exception class *)

(** The outcome of a call: a value, or a raised exception. *)
Inductive result (A : Type) : Type :=
  | Ok (a : A)
  | Raise (e : exn).
Arguments Ok {A} a.
Arguments Raise {A} e.

Definition bind {A B : Type} (r : result A) (f : A -> result B) : result B :=
  match r with
  | Ok a => f a
  | Raise e => Raise e
  end.

#[global] Instance result_ret : MRet result := fun A a => Ok a.
#[global] Instance result_bind : MBind result := fun A B f r => bind r f.

(* ===================================================================== *)
(** * class LLM *)
(* ===================================================================== *)

(** Modelled from the spec: the classes [Memory], [BasePrompt] and
    [PipelineContext] live in [pandasai.helpers.memory],
    [pandasai.prompts.base] and [pandasai.pipelines.pipeline_context],
    which are not part of this source.  A memory is an ordered sequence of
    conversation turns; a prompt is a text value with a [to_string]
    capability; a pipeline context exposes a [memory] field. *)
Record turn : Type := Turn { message : str; is_user : bool }.

Abbreviation Memory := (list turn).

Record BasePrompt : Type := Prompt { to_string : str }.

Record PipelineContext : Type := Context { memory : option Memory }.

(** The truth value of [memory] in [if memory]: [None] is false, and a
    [Memory] object is true whether or not it holds a turn, as is every
    object whose class has no [__bool__] and no [__len__]; nothing in
    this source gives [Memory] either. *)
Definition truthy (m : option Memory) : bool :=
  match m with
  | None => false
  | Some _ => true
  end.

(** The three patterns of [_polish_code]: the language tag (python or py
    at the start), a text between two backticks, and the same with the
    text between them as group 1. *)
Definition tag_re : regex :=
  Seq Bol (Group 1 (Alt (lit (py "python")) (lit (py "py")))).
Definition quoted_re : regex :=
  Seq Bol (Seq (Chr BACKTICK) (Seq (Star Any) (Seq (Chr BACKTICK) Eol))).
Definition quoted_group_re : regex :=
  Seq Bol (Seq (Chr BACKTICK) (Seq (Group 1 (Star Any)) (Seq (Chr BACKTICK) Eol))).

Definition _polish_code (code : str) : str :=
  let code :=
    if re_match tag_re code is Some _ then re_sub tag_re [] code else code in
  let code :=
    if re_match quoted_re code is Some _
    then re_sub quoted_group_re [TGroup 1] code else code in
  strip code.

Definition default_separator : str := py "```".

Section LLM.

(** [ast.parse] of the Python standard library: it returns a syntax
    tree (of no further use here) or raises. *)
Variable ast_parse : str -> result unit.

(** [GenerateSystemMessagePrompt(memory=memory)], from
    [pandasai.prompts.generate_system_message]. *)
Variable GenerateSystemMessagePrompt : Memory -> BasePrompt.

Definition _is_python_code (string : str) : result bool :=
  match ast_parse string with
  | Ok _ => Ok true
  | Raise (SyntaxError _) => Ok false
  | Raise e => Raise e
  end.

(** The candidate that [_extract_code] validates: the text after the
    first separator when there is one, polished. *)
Definition candidate (response separator : str) : result str :=
  let code := response in
  code ←
    (if contains separator response then
      match split separator code with
      | None => Raise (ValueError (py "empty separator"))
      | Some segments =>
          if 1 <? length segments then
            match segments !! 1 with
            | Some segment => Ok segment
            | None => Raise (IndexError (py "list index out of range"))
            end
          else Ok code
      end
    else Ok code);
  Ok (_polish_code code).

Definition _extract_code (response separator : str) : result str :=
  code ← candidate response separator;
  valid ← _is_python_code code;
  if negb valid then Raise (NoCodeFoundError (py "No code found in the response"))
  else Ok code.

(** What [_extract_code] does with its candidate. *)
Definition validated (code : str) : result str :=
  match ast_parse code with
  | Ok _ => Ok code
  | Raise (SyntaxError _) =>
      Raise (NoCodeFoundError (py "No code found in the response"))
  | Raise e => Raise e
  end.

Definition get_system_prompt (memory : Memory) : str :=
  to_string (GenerateSystemMessagePrompt memory).

(** The prompt is the text the callers pass; [+] is concatenation of
    strings. *)
Definition prepend_system_prompt (prompt : str) (memory : option Memory) : str :=
  if truthy memory then
    match memory with
    | Some m => get_system_prompt m ++ prompt
    | None => prompt   (* [None] is not true *)
    end
  else prompt.

(** The interface of an adapter: the abstract method [call], which may
    assign attributes of the adapter and may raise. *)
Class LLM (Self : Type) : Type :=
  call : Self -> BasePrompt -> option PipelineContext -> result str * Self.

(** [LLM.call] as the base class has it. *)
Definition LLM_call {Self : Type} (self : Self) (instruction : BasePrompt)
    (context : option PipelineContext) : result str * Self :=
  (Raise (MethodNotImplementedError (py "Call method has not been implemented")), self).

(** [LLM.type] *)
Definition LLM_type : result str :=
  Raise (APIKeyNotFoundError (py "Type has not been implemented")).

Definition generate_code {Self : Type} `{LLM Self} (self : Self)
    (instruction : BasePrompt) (context : option PipelineContext)
    : result str * Self :=
  let '(response, self) := call self instruction context in
  (response ← response; _extract_code response default_separator, self).

End LLM.

(* ===================================================================== *)
(** * class BaseGoogle *)
(* ===================================================================== *)

(** A Python number, [int] or [float]: an exact rational, an infinity or
    a NaN. *)
Inductive number : Type :=
  | Finite (q : Q)
  | PosInf
  | NegInf
  | NaN.

(** [x <= y] on numbers; every comparison with a NaN is false. *)
Definition num_le (x y : number) : bool :=
  match x, y with
  | NaN, _ | _, NaN => false
  | NegInf, _ | _, PosInf => true
  | Finite a, Finite b => Qle_bool a b
  | _, _ => false
  end.

(** The adapter object: [last_prompt] of class [LLM] and the four
    generation parameters, each [Optional]. *)
Record BaseGoogle : Type := Google {
  last_prompt : option str;
  temperature : option number;
  top_p : option number;
  top_k : option number;
  max_output_tokens : option number
}.

(** The class attributes: a new adapter starts from them.  [0.8] is the
    double nearest to 8/10. *)
Definition BaseGoogle_defaults : BaseGoogle :=
  {| last_prompt := None;
     temperature := Some (Finite 0);
     top_p := Some (Finite (3602879701896397 # 4503599627370496));
     top_k := Some (Finite 40);
     max_output_tokens := Some (Finite 1000) |}.

Definition _valid_params : list str :=
  [py "temperature"; py "top_p"; py "top_k"; py "max_output_tokens"].

(** [setattr(self, key, value)] on the attributes that hold generation
    parameters, the only ones [_set_params] assigns. *)
Definition setattr (self : BaseGoogle) (key : str) (value : option number)
    : BaseGoogle :=
  if decide (key = py "temperature") then
    Google (last_prompt self) value (top_p self) (top_k self) (max_output_tokens self)
  else if decide (key = py "top_p") then
    Google (last_prompt self) (temperature self) value (top_k self) (max_output_tokens self)
  else if decide (key = py "top_k") then
    Google (last_prompt self) (temperature self) (top_p self) value (max_output_tokens self)
  else if decide (key = py "max_output_tokens") then
    Google (last_prompt self) (temperature self) (top_p self) (top_k self) value
  else self.

(** The loop over [kwargs.items()].  The keys of a dictionary are
    distinct, so the order of the iteration does not show in the result. *)
Definition _set_params (kwargs : gmap str (option number)) (self : BaseGoogle)
    : BaseGoogle :=
  let valid_params := _valid_params in
  map_fold (fun key value self =>
              if bool_decide (key ∈ valid_params) then setattr self key value
              else self) self kwargs.

(** [x is not None and p(x)] *)
Definition is_not_None_and (x : option number) (p : number -> bool) : bool :=
  match x with
  | Some v => p v
  | None => false
  end.

(** [lo <= x <= hi] *)
Definition between (lo hi x : number) : bool := num_le lo x && num_le x hi.

Definition _validate (self : BaseGoogle) : result unit :=
  if is_not_None_and (temperature self) (fun t => negb (between (Finite 0) (Finite 1) t)) then
    Raise (ValueError (py "temperature must be in the range [0.0, 1.0]"))
  else if is_not_None_and (top_p self) (fun p => negb (between (Finite 0) (Finite 1) p)) then
    Raise (ValueError (py "top_p must be in the range [0.0, 1.0]"))
  else if is_not_None_and (top_k self) (fun k => negb (between (Finite 0) (Finite 100) k)) then
    Raise (ValueError (py "top_k must be in the range [0.0, 100.0]"))
  else if is_not_None_and (max_output_tokens self) (fun m => num_le m (Finite 0)) then
    Raise (ValueError (py "max_output_tokens must be greater than zero"))
  else Ok tt.

Definition set_last_prompt (self : BaseGoogle) (p : option str) : BaseGoogle :=
  Google p (temperature self) (top_p self) (top_k self) (max_output_tokens self).

Section BaseGoogle.

(** The abstract method [_generate_text] of the provider's subclass: it
    runs on the adapter, may assign its attributes and may raise. *)
Variable _generate_text :
  BaseGoogle -> str -> option Memory -> result str * BaseGoogle.

(** [BaseGoogle.call]: the prompt text is stored in [last_prompt] and
    read back from it for the provider. *)
Definition BaseGoogle_call (self : BaseGoogle) (instruction : BasePrompt)
    (context : option PipelineContext) : result str * BaseGoogle :=
  let prompt := to_string instruction in
  let self := set_last_prompt self (Some prompt) in
  let memory := if context is Some c then memory c else None in
  _generate_text self prompt memory.

#[local] Instance BaseGoogle_LLM : LLM BaseGoogle := BaseGoogle_call.


End BaseGoogle.

(* ===================================================================== *)
(** * A parser to run the code with *)
(* ===================================================================== *)

(** [ast.parse] belongs to the Python runtime and stays a parameter of the
    development.  To evaluate the methods on concrete responses the
    parameter is instantiated with [expr_parse], a parser for a fragment
    of Python: the empty module, or one expression built from names that
    are not keywords, integer literals, [+], parentheses and calls with at
    most one argument.  Everything else is answered with [SyntaxError]. *)
Module ExprParser.

Inductive token : Type := TName | TNum | TOpen | TClose | TPlus | TBad.

Definition is_digit (c : N) : bool := ((48 <=? c) && (c <=? 57))%N.
Definition is_letter (c : N) : bool :=
  ((97 <=? c) && (c <=? 122) || (65 <=? c) && (c <=? 90) || (c =? 95))%N.

Definition keywords : list str :=
  map py ["False"; "None"; "True"; "and"; "as"; "assert"; "async"; "await";
          "break"; "class"; "continue"; "def"; "del"; "elif"; "else";
          "except"; "finally"; "for"; "from"; "global"; "if"; "import";
          "in"; "is"; "lambda"; "nonlocal"; "not"; "or"; "pass"; "raise";
          "return"; "try"; "while"; "with"; "yield"]%string.

(** The token of a maximal run of letters and digits. *)
Definition word (w : str) : list token :=
  match w with
  | [] => []
  | c :: _ =>
      if forallb is_digit w then [TNum]
      else if is_letter c && negb (bool_decide (w ∈ keywords)) then [TName]
      else [TBad]
  end.

Definition punct (c : N) : list token :=
  if (c =? 32)%N then []
  else if (c =? 40)%N then [TOpen]
  else if (c =? 41)%N then [TClose]
  else if (c =? 43)%N then [TPlus]
  else [TBad].

(** [pending] is the run of letters and digits read so far, reversed. *)
Fixpoint lex (s pending : str) : list token :=
  match s with
  | [] => word (reverse pending)
  | c :: s' =>
      if is_digit c || is_letter c then lex s' (c :: pending)
      else word (reverse pending) ++ punct c ++ lex s' []
  end.

(** One expression at the head of [ts]; the result is what follows it. *)
Fixpoint expr (n : nat) (ts : list token) : option (list token) :=
  match n with
  | 0 => None
  | S n' =>
      let closed (r : option (list token)) :=
        match r with
        | Some (TClose :: r') => Some r'
        | _ => None
        end in
      let atom :=
        match ts with
        | TNum :: r => Some r
        | TName :: TOpen :: TClose :: r => Some r
        | TName :: TOpen :: r => closed (expr n' r)
        | TName :: r => Some r
        | TOpen :: r => closed (expr n' r)
        | _ => None
        end in
      match atom with
      | Some (TPlus :: r) => expr n' r
      | other => other
      end
  end.

Definition expr_parse (s : str) : result unit :=
  match lex s [] with
  | [] => Ok tt
  | ts =>
      if expr (S (length ts)) ts is Some [] then Ok tt
      else Raise (SyntaxError (py "invalid syntax"))
  end.

End ExprParser.
Export ExprParser.

(** A provider for [BaseGoogle] that answers every prompt with the same
    text and assigns nothing. *)
Definition constant_provider (answer : result str)
    : BaseGoogle -> str -> option Memory -> result str * BaseGoogle :=
  fun self _ _ => (answer, self).

(** A system message to run [prepend_system_prompt] with: the turns of
    the memory after a heading. *)
Definition history_header : Memory -> BasePrompt :=
  fun m => Prompt (py "Previous conversation: " ++ concat (map message m) ++ [LF]).

(* ===================================================================== *)
(** * Notions used in the statements *)
(* ===================================================================== *)

(** The part of [s] that [split] returns at index 1 when [sep] occurs in
    [s] at [i] first: what follows that occurrence, up to the next one. *)
Definition after_first (sep s : str) (i : nat) : str :=
  let rest := drop (i + length sep) s in
  match find sep rest with
  | Some j => take j rest
  | None => rest
  end.

(** [code] is one line between two backticks: [inner] is the text
    between them and [tail] a newline that may end the line. *)
Definition quoted (code inner tail : str) : Prop :=
  code = BACKTICK :: (inner ++ BACKTICK :: tail) ∧ (LF ∉ inner)
  ∧ (tail = [] ∨ tail = [LF]).

(** The response yields [code]: [_extract_code] returns [code] for it,
    and so does [generate_code] on every adapter whose [call] returns it. *)
Definition extracts (ast_parse : str -> result unit) (response code : str) : Prop :=
  _extract_code ast_parse response default_separator = Ok code
  ∧ ∀ (Self : Type) (adapter : LLM Self) (self self' : Self)
      (instruction : BasePrompt) (context : option PipelineContext),
      call self instruction context = (Ok response, self') →
      generate_code ast_parse self instruction context = (Ok code, self').

(** The text that [_extract_code] polishes: all of [response] when the
    separator does not occur in it, and otherwise what follows the first
    occurrence. *)
Definition chosen (response separator : str) : str :=
  match find separator response with
  | None => response
  | Some i => after_first separator response i
  end.

(** The generation parameters, in the order [_validate] checks them. *)
Inductive param : Type := Temperature | TopP | TopK | MaxOutputTokens.

Definition param_name (p : param) : str :=
  match p with
  | Temperature => py "temperature"
  | TopP => py "top_p"
  | TopK => py "top_k"
  | MaxOutputTokens => py "max_output_tokens"
  end.

Definition param_value (self : BaseGoogle) (p : param) : option number :=
  match p with
  | Temperature => temperature self
  | TopP => top_p self
  | TopK => top_k self
  | MaxOutputTokens => max_output_tokens self
  end.

Definition param_index (p : param) : nat :=
  match p with
  | Temperature => 0
  | TopP => 1
  | TopK => 2
  | MaxOutputTokens => 3
  end.

(** [x] lies in the interval from [lo] to [hi]; [x] is greater than zero. *)
Definition in_range (lo hi : Q) (x : number) : Prop :=
  ∃ q, x = Finite q ∧ (lo <= q)%Q ∧ (q <= hi)%Q.

Definition positive (x : number) : Prop :=
  x = PosInf ∨ ∃ q, x = Finite q ∧ (0 < q)%Q.

(** The valid values of a parameter, as the spec lists them. *)
Definition valid (p : param) (x : number) : Prop :=
  match p with
  | Temperature | TopP => in_range 0 1 x
  | TopK => in_range 0 100 x
  | MaxOutputTokens => positive x
  end.

(** A parameter passes when it is not set or its value is valid. *)
Definition passes (self : BaseGoogle) (p : param) : Prop :=
  ∀ x, param_value self p = Some x → valid p x.

(** The error of a parameter out of range. *)
Definition range_message (p : param) : str :=
  match p with
  | Temperature => py "temperature must be in the range [0.0, 1.0]"
  | TopP => py "top_p must be in the range [0.0, 1.0]"
  | TopK => py "top_k must be in the range [0.0, 100.0]"
  | MaxOutputTokens => py "max_output_tokens must be greater than zero"
  end.

Definition range_error (p : param) : exn := ValueError (range_message p).

(** The condition that [_validate] tests for a parameter. *)
Definition rejects (self : BaseGoogle) (p : param) : bool :=
  match p with
  | Temperature =>
      is_not_None_and (temperature self)
        (fun t => negb (between (Finite 0) (Finite 1) t))
  | TopP =>
      is_not_None_and (top_p self)
        (fun t => negb (between (Finite 0) (Finite 1) t))
  | TopK =>
      is_not_None_and (top_k self)
        (fun k => negb (between (Finite 0) (Finite 100) k))
  | MaxOutputTokens =>
      is_not_None_and (max_output_tokens self) (fun m => num_le m (Finite 0))
  end.

(** The loop of [_set_params] over the items of [kwargs] in a given
    order, the order of insertion in Python. *)
Definition set_params_items (items : list (str * option number))
    (self : BaseGoogle) : BaseGoogle :=
  fold_left (fun self '(key, value) =>
               if bool_decide (key ∈ _valid_params) then setattr self key value
               else self) items self.

(** [code] without the language tag that [_polish_code] removes. *)
Definition without_tag (code : str) : str :=
  if startswith (py "python") code then drop 6 code
  else if startswith (py "py") code then drop 2 code
  else code.

(** [s] has no white space at either end. *)
Definition trimmed (s : str) : Prop :=
  (∀ c, head s = Some c → isspace c = false)
  ∧ (∀ c, last s = Some c → isspace c = false).

(** [x] occurs in [s] as a run of consecutive characters. *)
Definition infix (x s : str) : Prop := ∃ a b, s = a ++ x ++ b.

(** [sep.join(l)] *)
Fixpoint join (sep : str) (l : list str) : str :=
  match l with
  | [] => []
  | x :: l' =>
      match l' with
      | [] => x
      | _ :: _ => x ++ sep ++ join sep l'
      end
  end.

(** The value of a parameter after [_set_params]: the one supplied under
    its name, or else the one the adapter had. *)
Definition effective (kwargs : gmap str (option number)) (self : BaseGoogle)
    (p : param) : option number :=
  match kwargs !! param_name p with
  | Some value => value
  | None => param_value self p
  end.

(* ===================================================================== *)
(** * Strings: searching and splitting *)
(* ===================================================================== *)

Section StrFacts.
Implicit Types (s t sep : str) (c : N).

Lemma startswith_app sep s : startswith sep (sep ++ s) = true.
Proof. induction sep as [|a sep IH]; simpl; [done|]. by rewrite N.eqb_refl. Qed.

Lemma startswith_inv sep s : startswith sep s = true → ∃ t, s = sep ++ t.
Proof.
  revert s. induction sep as [|a sep IH]; intros s H; simpl in *.
  - by exists s.
  - destruct s as [|b s]; [done|].
    apply andb_prop in H as [Hab H]. apply N.eqb_eq in Hab as ->.
    destruct (IH _ H) as [t ->]. by exists t.
Qed.

Lemma startswith_nil_r sep : startswith sep [] = true → sep = [].
Proof. by destruct sep. Qed.

(** [find] returns an occurrence, and the lowest one. *)
Lemma find_Some sep s i :
  find sep s = Some i →
  startswith sep (drop i s) = true ∧ i ≤ length s
  ∧ ∀ j, j < i → startswith sep (drop j s) = false.
Proof.
  revert i. induction s as [|c s IH]; intros i; simpl.
  - destruct (startswith sep []) eqn:E; [|done].
    intros [= <-]. split_and!; [done|lia|lia].
  - destruct (startswith sep (c :: s)) eqn:E.
    + intros [= <-]. split_and!; [done|lia|lia].
    + destruct (find sep s) as [i'|]; [|done]. simpl. intros [= <-].
      destruct (IH _ eq_refl) as (H1 & H2 & H3).
      split_and!; [done|simpl; lia|].
      intros [|j] Hj; [done|]. simpl. apply H3. lia.
Qed.

Lemma find_None sep s j : find sep s = None → startswith sep (drop j s) = false.
Proof.
  revert j. induction s as [|c s IH]; intros j; simpl.
  - destruct (startswith sep []) eqn:E; [done|]. by rewrite drop_nil.
  - destruct (startswith sep (c :: s)) eqn:E; [done|].
    destruct (find sep s) eqn:F; [done|]. intros _.
    destruct j as [|j]; [done|]. simpl. by apply IH.
Qed.

Lemma find_lowest sep s i :
  startswith sep (drop i s) = true → i ≤ length s →
  (∀ j, j < i → startswith sep (drop j s) = false) →
  find sep s = Some i.
Proof.
  revert i. induction s as [|c s IH]; intros i Hi Hlen Hlow.
  - simpl in Hlen. assert (i = 0) as -> by lia. simpl in *. by rewrite Hi.
  - destruct i as [|i].
    + simpl in Hi. simpl. by rewrite Hi.
    + pose proof (Hlow 0 ltac:(lia)) as H0. simpl in H0, Hi, Hlen.
      simpl. rewrite H0, (IH i); [done|done|lia|].
      intros j Hj. apply (Hlow (S j)). lia.
Qed.

Lemma find_app_head sep s : find sep (sep ++ s) = Some 0.
Proof.
  destruct sep as [|a sep]; [by destruct s|].
  simpl. by rewrite N.eqb_refl, startswith_app.
Qed.

End StrFacts.

Section SplitFacts.
Implicit Types (s t sep : str).

Lemma startswith_length sep s : startswith sep s = true → length sep ≤ length s.
Proof.
  intros H. apply startswith_inv in H as [t ->]. rewrite length_app. lia.
Qed.

Lemma find_nil_nonempty sep : sep ≠ [] → find sep [] = None.
Proof. by destruct sep. Qed.

Lemma split_loop_second sep s i :
  sep ≠ [] → find sep s = Some i →
  ∃ tl, split_loop (length s) sep s = take i s :: after_first sep s i :: tl.
Proof.
  intros Hsep Hfind.
  destruct (find_Some _ _ _ Hfind) as (Hocc & Hi & _).
  apply startswith_length in Hocc. rewrite length_drop in Hocc.
  assert (0 < length sep) by (destruct sep; [done|simpl; lia]).
  destruct (length s) as [|n] eqn:Hn; [lia|].
  simpl. rewrite Hfind. unfold after_first.
  destruct n as [|n]; simpl.
  - assert (drop (i + length sep) s = []) as ->
      by (apply drop_ge; lia).
    rewrite (find_nil_nonempty _ Hsep). by eexists.
  - destruct (find sep (drop (i + length sep) s)); by eexists.
Qed.

Lemma split_loop_absent sep s n : find sep s = None → split_loop n sep s = [s].
Proof. intros H. destruct n; simpl; [done|]. by rewrite H. Qed.

(** The bound [length s] on the number of cuts is never reached: any
    larger one gives the same list. *)
Lemma split_loop_enough sep s n m :
  sep ≠ [] → length s ≤ n → length s ≤ m →
  split_loop n sep s = split_loop m sep s.
Proof.
  intros Hsep. revert s m.
  assert (Hnil : ∀ k, split_loop k sep [] = [[]]).
  { intros [|k]; [done|]. cbn [split_loop]. by rewrite (find_nil_nonempty _ Hsep). }
  induction n as [|n IH]; intros s m Hn Hm.
  - destruct s; [|simpl in Hn; lia]. by rewrite !Hnil.
  - destruct m as [|m].
    { destruct s; [|simpl in Hm; lia]. by rewrite !Hnil. }
    simpl. destruct (find sep s) as [i|] eqn:Hfind; [|done].
    destruct (find_Some _ _ _ Hfind) as (Hocc & Hi & _).
    apply startswith_length in Hocc. rewrite length_drop in Hocc.
    assert (0 < length sep) by (destruct sep; [done|simpl; lia]).
    f_equal. apply IH; rewrite length_drop; lia.
Qed.

End SplitFacts.

(* ===================================================================== *)
(** * The patterns of [_polish_code] *)
(* ===================================================================== *)

(** Literals are replaced by their code points. *)
Ltac codes :=
  repeat match goal with
    | |- context [py ?w] =>
        let v := eval vm_compute in (py w) in change (py w) with v
    | H : context [py ?w] |- _ =>
        let v := eval vm_compute in (py w) in change (py w) with v in H
    end.

Section ReFacts.
Implicit Types (s code : str) (r : regex) (st : mstate).

(** A pattern that begins with [^] matches at the start only. *)
Lemma match_at_anchored s r p ma : 0 < p → match_at s (Seq Bol r) p ma = None.
Proof. intros Hp. unfold match_at. simpl. by destruct p; [lia|]. Qed.

Lemma search_loop_anchored s r n p ma :
  0 < p → search_loop s (Seq Bol r) n p ma = None.
Proof.
  revert p ma. induction n as [|n IH]; intros p ma Hp; simpl;
    rewrite match_at_anchored by done; [done|]. apply IH. lia.
Qed.


Lemma search_loop_hit s r n p ma st :
  match_at s r p ma = Some st → search_loop s r n p ma = Some (p, st).
Proof. intros H. destruct n; simpl; by rewrite H. Qed.

Lemma re_sub_anchored_match s r t st :
  match_at s (Seq Bol r) 0 false = Some st → 0 < pos st →
  re_sub (Seq Bol r) t s = expand t s st ++ drop (pos st) s.
Proof.
  intros Hm Hpos. unfold re_sub.
  replace (2 * length s + 2) with (S (S (2 * length s))) by lia.
  cbn [sub_loop]. unfold search_from.
  rewrite (search_loop_hit _ _ _ _ _ _ Hm).
  by rewrite search_loop_anchored by done.
Qed.

Lemma re_sub_anchored_nomatch s r t :
  match_at s (Seq Bol r) 0 false = None → re_sub (Seq Bol r) t s = s.
Proof.
  intros Hm. unfold re_sub.
  replace (2 * length s + 2) with (S (S (2 * length s))) by lia.
  cbn [sub_loop]. unfold search_from.
  destruct (length s - 0) as [|n]; cbn [search_loop]; rewrite Hm; [done|].
  by rewrite search_loop_anchored by lia.
Qed.

(** The language tag. *)
Lemma tag_match_python body :
  re_match tag_re (py "python" ++ body) = Some (set_group 1 0 6 (MState 6 ∅)).
Proof. reflexivity. Qed.

Lemma tag_sub_python body : re_sub tag_re [] (py "python" ++ body) = body.
Proof.
  pose proof (tag_match_python body) as Hm.
  unfold tag_re. by rewrite (re_sub_anchored_match _ _ [] _ Hm) by (simpl; lia).
Qed.

Lemma tag_nomatch code : startswith (py "py") code = false → re_match tag_re code = None.
Proof.
  intros H. unfold re_match, match_at, tag_re. codes.
  destruct code as [|a [|b code]]; cbn -[N.eqb] in *.
  - done.
  - by destruct (112 =? a)%N.
  - destruct (112 =? a)%N; [|done]. cbn -[N.eqb] in *.
    rewrite andb_true_r in H. by rewrite H.
Qed.

(** A greedy [.*] in front of [k]: the longest run of characters other
    than a newline after which [k] succeeds. *)
Lemma run_any s st k :
  run s Any st k =
  match s !! pos st with
  | Some c => if (c =? LF)%N then None else k (advance st)
  | None => None
  end.
Proof. done. Qed.

Ltac star_step p :=
  cbn [star_loop]; rewrite ?run_any; unfold advance; cbn [pos groups];
  rewrite ?(proj2 (Nat.ltb_lt p (S p))) by lia.

Lemma star_any_none s k n p g :
  (∀ j, k (MState (p + j) g) = None) →
  star_loop (run s Any) k n (MState p g) = None.
Proof.
  revert p. induction n as [|n IH]; intros p Hk; star_step p.
  - specialize (Hk 0). by rewrite Nat.add_0_r in Hk.
  - assert (k (MState p g) = None) as ->
      by (specialize (Hk 0); by rewrite Nat.add_0_r in Hk).
    destruct (s !! p) as [c|]; [|done]. destruct (c =? LF)%N; [done|].
    star_step p.
    rewrite IH; [done|]. intros j. specialize (Hk (S j)).
    by replace (S p + j) with (p + S j) by lia.
Qed.

Lemma star_any_some s k n p g j m :
  (∀ i, i < j → ∃ c, s !! (p + i) = Some c ∧ c ≠ LF) → j ≤ n →
  k (MState (p + j) g) = Some m →
  (∀ j', j < j' → k (MState (p + j') g) = None) →
  star_loop (run s Any) k n (MState p g) = Some m.
Proof.
  revert p j. induction n as [|n IH]; intros p j Hrun Hj Hk Hlater; star_step p.
  - assert (j = 0) as -> by lia. by rewrite Nat.add_0_r in Hk.
  - destruct j as [|j].
    + rewrite Nat.add_0_r in Hk. rewrite Hk.
      destruct (s !! p) as [c|]; [|done]. destruct (c =? LF)%N; [done|].
      star_step p.
      rewrite star_any_none; [done|]. intros j.
      replace (S p + j) with (p + S j) by lia. apply Hlater. lia.
    + destruct (Hrun 0 ltac:(lia)) as (c & Hc & Hne).
      rewrite Nat.add_0_r in Hc. rewrite Hc.
      apply N.eqb_neq in Hne. rewrite Hne.
      star_step p.
      rewrite (IH (S p) j); [done| |lia| |].
      * intros i Hi. replace (S p + i) with (p + S i) by lia.
        apply Hrun. lia.
      * by replace (S p + j) with (p + S j) by lia.
      * intros j' Hj'. replace (S p + j') with (p + S j') by lia.
        apply Hlater. lia.
Qed.

Lemma star_any_inv s k n p g m :
  star_loop (run s Any) k n (MState p g) = Some m →
  ∃ j, (∀ i, i < j → ∃ c, s !! (p + i) = Some c ∧ c ≠ LF)
       ∧ k (MState (p + j) g) = Some m.
Proof.
  revert p. induction n as [|n IH]; intros p; star_step p.
  - intros Hk. exists 0. rewrite Nat.add_0_r. split; [|done]. intros; lia.
  - assert (Hstop : k (MState p g) = Some m →
      ∃ j, (∀ i, i < j → ∃ c, s !! (p + i) = Some c ∧ c ≠ LF)
           ∧ k (MState (p + j) g) = Some m).
    { intros Hk. exists 0. rewrite Nat.add_0_r. split; [|done]. intros; lia. }
    destruct (s !! p) as [c|] eqn:Hc; [|done].
    destruct (N.eqb_spec c LF) as [|Hne]; [done|].
    star_step p.
    destruct (star_loop _ _ n (MState (S p) g)) as [m'|] eqn:Hloop; [|done].
    intros [= ->]. destruct (IH _ Hloop) as (j & Hrun & Hk).
    exists (S j). replace (p + S j) with (S p + j) by lia. split; [|done].
    intros [|i] Hi.
    + rewrite Nat.add_0_r. eauto.
    + replace (p + S i) with (S p + i) by lia. apply Hrun. lia.
Qed.

End ReFacts.

Section QuotedFacts.
Implicit Types (s code inner tail : str) (r : regex) (st : mstate).

(** The equations of the matcher. *)
Lemma run_seq s r1 r2 st k :
  run s (Seq r1 r2) st k = run s r1 st (fun st' => run s r2 st' k).
Proof. done. Qed.

Lemma run_bol s g k : run s Bol (MState 0 g) k = k (MState 0 g).
Proof. done. Qed.

Lemma run_chr s c p g k :
  s !! p = Some c → run s (Chr c) (MState p g) k = k (MState (S p) g).
Proof. intros H. cbn [run pos]. by rewrite H, N.eqb_refl. Qed.

Lemma run_chr_eq s c p g k :
  run s (Chr c) (MState p g) k =
  match s !! p with
  | Some c' => if (c =? c')%N then k (MState (S p) g) else None
  | None => None
  end.
Proof. done. Qed.

Lemma run_star s r p g k :
  run s (Star r) (MState p g) k
  = star_loop (run s r) k (length s - p) (MState p g).
Proof. done. Qed.

Lemma run_group s i r p g k :
  run s (Group i r) (MState p g) k
  = run s r (MState p g) (fun st' => k (set_group i p (pos st') st')).
Proof. done. Qed.

(** The end of the quoted pattern: a backtick, then [$]. *)
Lemma run_closing s q g k :
  run s (Seq (Chr BACKTICK) Eol) (MState q g) k =
  if bool_decide (s !! q = Some BACKTICK) && at_eol s (S q)
  then k (MState (S q) g) else None.
Proof.
  cbn [run pos]. destruct (s !! q) as [c|]; [|done].
  unfold advance; cbn [pos groups].
  destruct (N.eqb_spec BACKTICK c) as [<-|Hne].
  - by rewrite bool_decide_eq_true_2.
  - rewrite bool_decide_eq_false_2; [done|]. by intros [= ->].
Qed.

(** The positions of a quoted text. *)
Lemma quoted_lookup s inner tail :
  quoted s inner tail →
  s !! 0 = Some BACKTICK
  ∧ (∀ i, i < length inner → ∃ c, s !! (1 + i) = Some c ∧ c ≠ LF)
  ∧ s !! (1 + length inner) = Some BACKTICK
  ∧ (∀ i, s !! (2 + length inner + i) = tail !! i)
  ∧ length s = 2 + length inner + length tail.
Proof.
  intros (-> & Hnl & _). split_and!.
  - done.
  - intros i Hi. simpl. rewrite lookup_app_l by done.
    destruct (lookup_lt_is_Some_2 inner i Hi) as [c Hc].
    exists c. split; [done|]. intros ->.
    apply Hnl. by eapply list_elem_of_lookup_2.
  - simpl. rewrite lookup_app_r by lia. by rewrite Nat.sub_diag.
  - intros i. simpl. rewrite lookup_app_r by lia.
    by replace (S (length inner + i) - length inner) with (S i) by lia.
  - simpl. rewrite length_app. simpl. lia.
Qed.

Lemma quoted_eol s inner tail :
  quoted s inner tail → at_eol s (2 + length inner) = true.
Proof.
  intros Hq. destruct (quoted_lookup _ _ _ Hq) as (_ & _ & _ & Htl & Hlen).
  destruct Hq as (_ & _ & [-> | ->]); unfold at_eol; simpl in Hlen.
  - rewrite (proj2 (Nat.eqb_eq _ _)); [done|lia].
  - rewrite (proj2 (Nat.eqb_eq (S (2 + length inner)) _)) by lia.
    specialize (Htl 0). rewrite Nat.add_0_r in Htl. rewrite Htl. simpl.
    by rewrite orb_true_r.
Qed.

Lemma quoted_later s inner tail j :
  quoted s inner tail → length inner < j →
  bool_decide (s !! (1 + j) = Some BACKTICK) = false.
Proof.
  intros Hq Hj. destruct (quoted_lookup _ _ _ Hq) as (_ & _ & _ & Htl & _).
  apply bool_decide_eq_false_2.
  replace (1 + j) with (2 + length inner + (j - length inner - 1)) by lia.
  rewrite Htl. destruct Hq as (_ & _ & [-> | ->]); [done|].
  by destruct (j - length inner - 1) as [|[|?]].
Qed.

Lemma quoted_match s inner tail :
  quoted s inner tail →
  re_match quoted_re s = Some (MState (2 + length inner) ∅).
Proof.
  intros Hq. destruct (quoted_lookup _ _ _ Hq) as (H0 & Hin & Hclose & _ & Hlen).
  unfold re_match, match_at, quoted_re.
  rewrite run_seq, run_bol, run_seq, (run_chr _ _ _ _ _ H0), run_seq, run_star.
  apply (star_any_some _ _ _ _ _ (length inner)).
  - done.
  - lia.
  - rewrite run_closing. rewrite Hclose, bool_decide_eq_true_2 by done.
    change (S (1 + length inner)) with (2 + length inner).
    by rewrite (quoted_eol _ _ _ Hq).
  - intros j Hj. rewrite run_closing. by rewrite (quoted_later _ _ _ _ Hq Hj).
Qed.

Lemma quoted_group_match s inner tail :
  quoted s inner tail →
  match_at s quoted_group_re 0 false
  = Some (set_group 1 1 (1 + length inner) (MState (2 + length inner) ∅)).
Proof.
  intros Hq. destruct (quoted_lookup _ _ _ Hq) as (H0 & Hin & Hclose & _ & Hlen).
  unfold match_at, quoted_group_re.
  rewrite run_seq, run_bol, run_seq, (run_chr _ _ _ _ _ H0), run_seq,
    run_group, run_star.
  apply (star_any_some _ _ _ _ _ (length inner)).
  - done.
  - lia.
  - cbn [pos]. unfold set_group at 1. cbn [pos groups].
    rewrite run_closing. rewrite Hclose, bool_decide_eq_true_2 by done.
    change (S (1 + length inner)) with (2 + length inner).
    by rewrite (quoted_eol _ _ _ Hq).
  - intros j Hj. cbn [pos]. unfold set_group at 1. cbn [pos groups].
    rewrite run_closing. by rewrite (quoted_later _ _ _ _ Hq Hj).
Qed.

Lemma quoted_sub s inner tail :
  quoted s inner tail → re_sub quoted_group_re [TGroup 1] s = inner ++ tail.
Proof.
  intros Hq. pose proof (quoted_group_match _ _ _ Hq) as Hm.
  unfold quoted_group_re in *.
  rewrite (re_sub_anchored_match _ _ _ _ Hm) by (simpl; lia).
  unfold expand, set_group. cbn [map concat pos groups].
  rewrite lookup_insert_eq. unfold substr.
  destruct Hq as (-> & _ & _). cbn [drop Nat.add].
  replace (S (length inner) - 1) with (length inner) by lia.
  rewrite drop_0, take_app_length, app_nil_r. f_equal.
  change (BACKTICK :: tail) with ([BACKTICK] ++ tail).
  rewrite app_assoc, drop_app_length'; [done|].
  rewrite length_app. simpl. lia.
Qed.

(** Nothing else matches. *)
Lemma quoted_inv s st :
  re_match quoted_re s = Some st → ∃ inner tail, quoted s inner tail.
Proof.
  unfold re_match, match_at, quoted_re.
  rewrite run_seq, run_bol, run_seq, run_chr_eq.
  destruct s as [|c s']; [done|]. cbn [lookup list_lookup].
  destruct (N.eqb_spec BACKTICK c) as [<-|]; [|done].
  rewrite run_seq, run_star.
  intros (j & Hrun & Hk)%star_any_inv.
  rewrite run_closing in Hk.
  destruct (bool_decide _) eqn:Hclose; [|done].
  destruct (at_eol _ _) eqn:Heol; [|done].
  apply bool_decide_eq_true_1 in Hclose. cbn in Hclose.
  exists (take j s'), (drop (S j) s'). split_and!.
  - f_equal. by rewrite take_drop_middle.
  - intros Hin. apply list_elem_of_lookup_1 in Hin as [i Hi].
    apply lookup_take_Some in Hi as [Hi Hlt].
    destruct (Hrun i Hlt) as (c & Hc & Hne). change (s' !! i = Some c) in Hc. congruence.
  - unfold at_eol in Heol. cbn [length] in Heol.
    apply orb_prop in Heol as [Heol|Heol].
    + apply Nat.eqb_eq in Heol. left. apply drop_ge. lia.
    + apply andb_prop in Heol as [Hlen Hlf].
      apply Nat.eqb_eq in Hlen. apply bool_decide_eq_true_1 in Hlf.
      cbn in Hlf. right.
      rewrite <- (take_drop_middle _ _ _ Hlf) at 1.
      rewrite drop_app_length'; [|rewrite length_take; lia].
      f_equal. apply drop_ge. lia.
Qed.

Lemma quoted_nomatch s :
  (∀ inner tail, ¬ quoted s inner tail) → re_match quoted_re s = None.
Proof.
  intros Hno. destruct (re_match quoted_re s) as [st|] eqn:Hm; [|done].
  destruct (quoted_inv _ _ Hm) as (inner & tail & Hq). by destruct (Hno inner tail).
Qed.

End QuotedFacts.

(* ===================================================================== *)
(** * [strip] and [_polish_code] *)
(* ===================================================================== *)

Section PolishFacts.
Implicit Types (s t code body inner tail : str).

Lemma lstrip_space s : forallb isspace s = true → lstrip s = [].
Proof.
  induction s as [|c s IH]; [done|]. cbn [forallb lstrip].
  intros [-> H]%andb_prop. by apply IH.
Qed.

Lemma lstrip_app_space t s : forallb isspace t = true → lstrip (t ++ s) = lstrip s.
Proof.
  induction t as [|c t IH]; [done|]. cbn [forallb lstrip app].
  intros [-> H]%andb_prop. by apply IH.
Qed.

Lemma lstrip_app s t :
  lstrip (s ++ t) = if forallb isspace s then lstrip t else lstrip s ++ t.
Proof.
  induction s as [|c s IH]; [done|]. cbn [forallb lstrip app].
  destruct (isspace c); [|done]. by rewrite IH.
Qed.

Lemma strip_space s : forallb isspace s = true → strip s = [].
Proof. intros H. unfold strip. by rewrite (lstrip_space _ H). Qed.

Lemma forallb_reverse (f : N → bool) s : forallb f (reverse s) = forallb f s.
Proof.
  induction s as [|c s IH]; [done|].
  rewrite reverse_cons, forallb_app, IH. simpl. 
  rewrite andb_true_r. apply andb_comm.
Qed.

(** White space at either end does not show in the result. *)
Lemma strip_app_space s t : forallb isspace t = true → strip (s ++ t) = strip s.
Proof.
  intros Ht. unfold strip. rewrite lstrip_app.
  destruct (forallb isspace s) eqn:Hs.
  - by rewrite (lstrip_space _ Ht), (lstrip_space _ Hs).
  - unfold rstrip. rewrite reverse_app, lstrip_app_space; [done|].
    by rewrite forallb_reverse.
Qed.

Lemma strip_space_app t s : forallb isspace t = true → strip (t ++ s) = strip s.
Proof. intros Ht. unfold strip. by rewrite lstrip_app_space. Qed.

(** The polished form of a text with the language tag [python]. *)
Lemma polish_python_plain body :
  (∀ inner tail, ¬ quoted body inner tail) →
  _polish_code (py "python" ++ body) = strip body.
Proof.
  intros Hno. unfold _polish_code.
  rewrite tag_match_python, tag_sub_python.
  by rewrite (quoted_nomatch _ Hno).
Qed.

Lemma polish_python_quoted body inner tail :
  quoted body inner tail →
  _polish_code (py "python" ++ body) = strip inner.
Proof.
  intros Hq. unfold _polish_code.
  rewrite tag_match_python, tag_sub_python.
  rewrite (quoted_match _ _ _ Hq), (quoted_sub _ _ _ Hq).
  apply strip_app_space. by destruct Hq as (_ & _ & [-> | ->]).
Qed.

(** The polished form of a text without the language tag. *)
Lemma polish_plain code :
  startswith (py "py") code = false →
  (∀ inner tail, ¬ quoted code inner tail) →
  _polish_code code = strip code.
Proof.
  intros Htag Hno. unfold _polish_code.
  by rewrite (tag_nomatch _ Htag), (quoted_nomatch _ Hno).
Qed.

Lemma polish_quoted code inner tail :
  quoted code inner tail → _polish_code code = strip inner.
Proof.
  intros Hq. unfold _polish_code.
  rewrite tag_nomatch by (by destruct Hq as (-> & _)).
  rewrite (quoted_match _ _ _ Hq), (quoted_sub _ _ _ Hq).
  apply strip_app_space. by destruct Hq as (_ & _ & [-> | ->]).
Qed.

End PolishFacts.

(* ===================================================================== *)
(** * [_extract_code] and [generate_code] *)
(* ===================================================================== *)

Section ExtractFacts.
Variable ast_parse : str → result unit.
Implicit Types (s response sep code body inner tail : str).

Lemma extract_validated response sep :
  _extract_code ast_parse response sep
  = candidate response sep ≫= validated ast_parse.
Proof.
  unfold _extract_code. destruct (candidate response sep) as [code|e]; [|done].
  cbn. unfold _is_python_code, validated.
  by destruct (ast_parse code) as [[]|[]].
Qed.

Lemma candidate_empty_separator response :
  candidate response [] = Raise (ValueError (py "empty separator")).
Proof. unfold candidate, contains. by destruct response. Qed.

Lemma candidate_chosen response sep :
  sep ≠ [] → candidate response sep = Ok (_polish_code (chosen response sep)).
Proof.
  intros Hsep. unfold candidate, chosen, contains.
  destruct (find sep response) as [i|] eqn:Hfind.
  - rewrite bool_decide_eq_true_2 by eauto.
    destruct sep as [|c sep]; [done|]. cbn [split].
    destruct (split_loop_second (c :: sep) response i Hsep Hfind) as [tl ->].
    done.
  - rewrite bool_decide_eq_false_2; [done|]. by intros [? ?].
Qed.

Lemma extract_chosen response sep :
  sep ≠ [] →
  _extract_code ast_parse response sep
  = validated ast_parse (_polish_code (chosen response sep)).
Proof. intros Hsep. by rewrite extract_validated, candidate_chosen. Qed.

Lemma extracts_intro response code :
  _extract_code ast_parse response default_separator = Ok code →
  extracts ast_parse response code.
Proof.
  intros Hcode. split; [done|].
  intros Self adapter self self' instruction context Hcall.
  unfold generate_code. rewrite Hcall.
  unfold mbind, result_bind, bind. by rewrite Hcode.
Qed.

Lemma validated_ok code : ast_parse code = Ok tt → validated ast_parse code = Ok code.
Proof. unfold validated. by intros ->. Qed.

End ExtractFacts.

Section FenceFacts.
Implicit Types (s t sep pre mid : str).

Lemma startswith_app_l sep s t :
  length sep ≤ length s → startswith sep (s ++ t) = startswith sep s.
Proof.
  revert s. induction sep as [|a sep IH]; intros s Hlen; [by destruct s|].
  destruct s as [|b s]; [simpl in Hlen; lia|].
  simpl. rewrite IH; [done|]. simpl in Hlen. lia.
Qed.

(** When the first separator of [pre ++ sep] is the one at its end, it is
    also the first one of any longer text. *)
Lemma find_closing sep pre t :
  find sep (pre ++ sep) = Some (length pre) →
  find sep (pre ++ sep ++ t) = Some (length pre).
Proof.
  intros Hfind. destruct (find_Some _ _ _ Hfind) as (_ & _ & Hlow).
  apply find_lowest.
  - by rewrite drop_app_length, startswith_app.
  - rewrite length_app. lia.
  - intros j Hj. rewrite <- (Hlow j Hj).
    rewrite app_assoc, !drop_app_le by (rewrite ?length_app; lia).
    rewrite <- app_assoc.
    rewrite (app_assoc (drop j pre)).
    apply startswith_app_l. rewrite length_app. lia.
Qed.

(** The text between the first two separators. *)
Lemma chosen_between sep pre mid t :
  find sep (pre ++ sep) = Some (length pre) →
  find sep (mid ++ sep) = Some (length mid) →
  chosen (pre ++ sep ++ mid ++ sep ++ t) sep = mid.
Proof.
  intros Hpre Hmid. unfold chosen.
  rewrite (find_closing _ _ (mid ++ sep ++ t) Hpre). unfold after_first.
  rewrite app_assoc, drop_app_length' by (by rewrite length_app).
  rewrite (find_closing _ _ t Hmid). by rewrite take_app_length.
Qed.

Lemma chosen_absent sep s : find sep s = None → chosen s sep = s.
Proof. unfold chosen. by intros ->. Qed.

Lemma find_space_fence s :
  forallb isspace s = true → find default_separator s = None.
Proof.
  induction s as [|c s IH]; [done|]. cbn [forallb].
  intros [Hc Hs]%andb_prop. cbn [find]. rewrite (IH Hs).
  unfold default_separator. codes. cbn [startswith].
  destruct (N.eqb_spec 96 c) as [<-|]; done.
Qed.

(** A text without a backtick holds no fence, so the fence put after it
    is the first one. *)
Lemma find_fence_after s :
  BACKTICK ∉ s → find default_separator (s ++ default_separator) = Some (length s).
Proof.
  induction s as [|c s IH]; [done|].
  intros [Hc Hs]%not_elem_of_cons. cbn [app find length].
  rewrite (IH Hs). unfold default_separator. codes. cbn [startswith].
  by destruct (N.eqb_spec 96 c) as [<-|].
Qed.

End FenceFacts.

(* ===================================================================== *)
(** * Code extraction: the claims *)
(* ===================================================================== *)

Section ExtractionClaims.
Implicit Types (ast_parse : str → result unit).
Implicit Types (s response sep code body inner tail rest pre mid : str).

(** A response that opens with a fence and the tag [python]: the text
    polished is what stands between the tag and the next fence. *)
Lemma fenced_python_chosen body rest :
  find default_separator ((py "python" ++ body) ++ default_separator)
  = Some (length (py "python" ++ body)) →
  chosen (default_separator ++ (py "python" ++ body) ++ default_separator ++ rest)
         default_separator
  = py "python" ++ body.
Proof.
  intros Hclose.
  apply (chosen_between default_separator [] (py "python" ++ body) rest);
    [done|done].
Qed.

Lemma fenced_python_extract ast_parse body rest code :
  find default_separator ((py "python" ++ body) ++ default_separator)
  = Some (length (py "python" ++ body)) →
  _polish_code (py "python" ++ body) = code →
  ast_parse code = Ok tt →
  extracts ast_parse
    (default_separator ++ (py "python" ++ body) ++ default_separator ++ rest) code.
Proof.
  intros Hclose Hpolish Hparse. apply extracts_intro.
  rewrite extract_chosen by done.
  rewrite (fenced_python_chosen _ _ Hclose), Hpolish.
  by apply validated_ok.
Qed.

(** The usual shape: no backtick between the tag and the closing fence. *)
Corollary fenced_python_plain ast_parse body rest :
  BACKTICK ∉ body →
  ast_parse (strip body) = Ok tt →
  extracts ast_parse
    (default_separator ++ (py "python" ++ body) ++ default_separator ++ rest)
    (strip body).
Proof.
  intros Hbody Hparse. apply fenced_python_extract; [| |done].
  - apply find_fence_after. rewrite elem_of_app. intros [Htag|]; [|done].
    revert Htag. by apply (bool_decide_eq_false_1 (BACKTICK ∈ py "python")).
  - apply polish_python_plain. intros inner tail (-> & _).
    apply Hbody. by left.
Qed.

(** C1: for a response made of a fence, the tag [python], a body and the
    closing fence (the first separator after the opening one), possibly
    followed by more text, [_extract_code] returns the body without the tag
    and the fences, with white space stripped at both ends, and without the
    two backticks when the body is one line between backticks; so does
    [generate_code] on an adapter whose [call] returns that response.  The
    returned text has to parse.  In particular the response of the
    example gives [print(1+1)]. *)
Theorem C1_fenced_python_block ast_parse body rest :
  let response :=
    default_separator ++ (py "python" ++ body) ++ default_separator ++ rest in
  find default_separator ((py "python" ++ body) ++ default_separator)
  = Some (length (py "python" ++ body)) →
  ((∀ inner tail, ¬ quoted body inner tail) →
   ast_parse (strip body) = Ok tt →
   extracts ast_parse response (strip body))
  ∧ (∀ inner tail, quoted body inner tail →
     ast_parse (strip inner) = Ok tt →
     extracts ast_parse response (strip inner))
  ∧ (ast_parse (py "print(1+1)") = Ok tt →
     extracts ast_parse
       (py "```python" ++ [LF] ++ py "print(1+1)" ++ [LF] ++ py "```")
       (py "print(1+1)")).
Proof.
  intros response Hclose. split_and!.
  - intros Hplain Hparse.
    by apply fenced_python_extract; [|apply polish_python_plain|].
  - intros inner tail Hq Hparse.
    by apply fenced_python_extract; [|apply (polish_python_quoted _ _ tail)|].
  - intros Hparse.
    apply (fenced_python_extract ast_parse ([LF] ++ py "print(1+1)" ++ [LF]) []);
      [by vm_compute|by vm_compute|done].
Qed.

Lemma C1_fenced_python_block_witness :
  extracts expr_parse
    (py "```python" ++ [LF] ++ py "print(1+1)" ++ [LF] ++ py "```")
    (py "print(1+1)").
Proof.
  refine (proj1 (C1_fenced_python_block expr_parse
                   ([LF] ++ py "print(1+1)" ++ [LF]) [] _) _ _).
  - vm_compute. reflexivity.
  - intros inner tail [H _]. discriminate H.
  - vm_compute. reflexivity.
Defined.

(** C2, as the code has it: when the separator does not occur in the
    response, all of the response is polished and validated; when it
    occurs, be it only once, the text polished and validated is what
    follows the first occurrence, up to the second one if there is one (the
    rest of the response when the separator occurs exactly once); what
    comes after the second occurrence, further fences included, does not
    show in the result. *)
Theorem C2_separator_segments ast_parse response sep :
  sep ≠ [] →
  (find sep response = None →
   _extract_code ast_parse response sep
   = validated ast_parse (_polish_code response))
  ∧ (∀ i, find sep response = Some i →
     _extract_code ast_parse response sep
     = validated ast_parse (_polish_code (after_first sep response i)))
  ∧ (∀ i, find sep response = Some i →
     find sep (drop (i + length sep) response) = None →
     _extract_code ast_parse response sep
     = validated ast_parse (_polish_code (drop (i + length sep) response)))
  ∧ (∀ pre mid rest,
     response = pre ++ sep ++ mid ++ sep ++ rest →
     find sep (pre ++ sep) = Some (length pre) →
     find sep (mid ++ sep) = Some (length mid) →
     _extract_code ast_parse response sep
     = validated ast_parse (_polish_code mid)).
Proof.
  intros Hsep. rewrite extract_chosen by done. split_and!.
  - intros Hnone. by rewrite chosen_absent.
  - intros i Hi. unfold chosen. by rewrite Hi.
  - intros i Hi Hnone. unfold chosen, after_first. by rewrite Hi, Hnone.
  - intros pre mid rest -> Hpre Hmid. by rewrite chosen_between.
Qed.

Lemma C2_separator_segments_witness :
  _extract_code expr_parse (py "```python" ++ [LF] ++ py "print(1+1)")
    default_separator
  = validated expr_parse (py "print(1+1)").
Proof.
  refine (proj1 (proj2 (proj2
    (C2_separator_segments expr_parse
       (py "```python" ++ [LF] ++ py "print(1+1)") default_separator _)))
    0 _ _).
  - discriminate.
  - vm_compute. reflexivity.
  - vm_compute. reflexivity.
Defined.

(** C2 as stated fails when the separator occurs exactly once: for a
    fence that is opened and never closed the code validates and returns
    the text after the fence, where the claim has it fall back on the
    whole text, which is not code. *)
Lemma C2_counterexample :
  count default_separator (py "```python" ++ [LF] ++ py "print(1+1)") = 1
  ∧ _extract_code expr_parse (py "```python" ++ [LF] ++ py "print(1+1)")
      default_separator
    = Ok (py "print(1+1)")
  ∧ validated expr_parse (strip (py "```python" ++ [LF] ++ py "print(1+1)"))
    = Raise (NoCodeFoundError (py "No code found in the response"))
  ∧ _extract_code expr_parse (py "```python" ++ [LF] ++ py "print(1+1)")
      default_separator
    ≠ validated expr_parse (strip (py "```python" ++ [LF] ++ py "print(1+1)")).
Proof. split_and!; [by vm_compute..|]. vm_compute. discriminate. Qed.

(** C3, as the code has it: a response without the separator, that does
    not begin with [py] and is not one line between backticks, and whose
    stripped text parses, is returned stripped. *)
Theorem C3_plain_response ast_parse response sep :
  find sep response = None →
  startswith (py "py") response = false →
  (∀ inner tail, ¬ quoted response inner tail) →
  ast_parse (strip response) = Ok tt →
  _extract_code ast_parse response sep = Ok (strip response).
Proof.
  intros Hnone Htag Hplain Hparse.
  assert (sep ≠ []) as Hsep by (intros ->; by destruct response).
  rewrite extract_chosen, chosen_absent, polish_plain by done.
  by apply validated_ok.
Qed.

Lemma C3_plain_response_witness :
  _extract_code expr_parse (py "  print(1+1) " ++ [LF]) default_separator
  = Ok (py "print(1+1)").
Proof.
  refine (C3_plain_response expr_parse (py "  print(1+1) " ++ [LF])
            default_separator _ _ _ _).
  - vm_compute. reflexivity.
  - vm_compute. reflexivity.
  - intros inner tail [H _]. discriminate H.
  - vm_compute. reflexivity.
Defined.

(** C3 as stated fails on a response that begins with [py]: the text is
    valid code as it stands, and the code returns it without its first
    two letters. *)
Lemma C3_counterexample :
  find default_separator (py "pyplot(1)") = None
  ∧ expr_parse (strip (py "pyplot(1)")) = Ok tt
  ∧ _extract_code expr_parse (py "pyplot(1)") default_separator
    = Ok (py "plot(1)")
  ∧ _extract_code expr_parse (py "pyplot(1)") default_separator
    ≠ Ok (strip (py "pyplot(1)")).
Proof. split_and!; [by vm_compute..|]. vm_compute. discriminate. Qed.

(** C4: the candidate of a response is the polished form of the text
    chosen by the separator, whether the separator occurs or not; when
    [ast.parse] raises [SyntaxError] on it, [_extract_code] raises
    [NoCodeFoundError], and when it parses, [_extract_code] returns it and
    raises nothing. *)
Theorem C4_no_code_found ast_parse response sep :
  sep ≠ [] →
  let code := _polish_code (chosen response sep) in
  candidate response sep = Ok code
  ∧ (∀ msg, ast_parse code = Raise (SyntaxError msg) →
     _extract_code ast_parse response sep
     = Raise (NoCodeFoundError (py "No code found in the response")))
  ∧ (ast_parse code = Ok tt →
     _extract_code ast_parse response sep = Ok code).
Proof.
  intros Hsep code. split_and!.
  - by apply candidate_chosen.
  - intros msg Hparse. rewrite extract_chosen by done.
    fold code. unfold validated. by rewrite Hparse.
  - intros Hparse. rewrite extract_chosen by done. by apply validated_ok.
Qed.

Lemma C4_no_code_found_witness :
  _extract_code expr_parse (py "not code at all") default_separator
  = Raise (NoCodeFoundError (py "No code found in the response"))
  ∧ _extract_code expr_parse (py "```python" ++ [LF] ++ py "not code at all" ++ py "```")
      default_separator
    = Raise (NoCodeFoundError (py "No code found in the response")).
Proof.
  split.
  - refine (proj1 (proj2 (C4_no_code_found expr_parse (py "not code at all")
                            default_separator _)) (py "invalid syntax") _).
    + discriminate.
    + vm_compute. reflexivity.
  - refine (proj1 (proj2 (C4_no_code_found expr_parse
                            (py "```python" ++ [LF] ++ py "not code at all" ++ py "```")
                            default_separator _)) (py "invalid syntax") _).
    + discriminate.
    + vm_compute. reflexivity.
Defined.

(** C10: for the empty response and for any response made of white space
    only, [_extract_code] with the default separator returns the empty
    string, given that [ast.parse] accepts the empty string; and so does
    [generate_code] when the provider answers with such a text. *)
Theorem C10_blank_response ast_parse response :
  forallb isspace response = true →
  ast_parse [] = Ok tt →
  extracts ast_parse response [].
Proof.
  intros Hblank Hparse. apply extracts_intro.
  rewrite extract_chosen by done.
  rewrite chosen_absent by (by apply find_space_fence).
  rewrite polish_plain, (strip_space _ Hblank).
  - by apply validated_ok.
  - destruct response as [|c s]; [done|]. cbn [forallb] in Hblank.
    apply andb_prop in Hblank as [Hc _]. codes. cbn [startswith].
    by destruct (N.eqb_spec 112 c) as [<-|].
  - intros inner tail (-> & _). done.
Qed.

Lemma C10_blank_response_witness :
  extracts expr_parse [] [] ∧ extracts expr_parse (py "  " ++ [LF; 9%N]) [].
Proof.
  split.
  - apply (C10_blank_response expr_parse []); vm_compute; reflexivity.
  - apply (C10_blank_response expr_parse (py "  " ++ [LF; 9%N]));
      vm_compute; reflexivity.
Defined.

End ExtractionClaims.

(* ===================================================================== *)
(** * [BaseGoogle]: the generation parameters *)
(* ===================================================================== *)

Section ValidateFacts.
Implicit Types (self : BaseGoogle) (p : param) (x : number).

Lemma between_in_range (lo hi : Q) x :
  between (Finite lo) (Finite hi) x = true ↔ in_range lo hi x.
Proof.
  unfold between, in_range. destruct x as [q| | |]; simpl.
  - rewrite andb_true_iff, !Qle_bool_iff. split.
    + intros [? ?]. by exists q.
    + by intros (? & [= <-] & ? & ?).
  - split; [done|]. by intros (? & ? & _).
  - split; [done|]. by intros (? & ? & _).
  - split; [done|]. by intros (? & ? & _).
Qed.

Lemma not_le_zero_positive x :
  x ≠ NaN → num_le x (Finite 0) = false ↔ positive x.
Proof.
  intros Hnan. unfold positive. destruct x as [q| | |]; simpl.
  - rewrite <- not_true_iff_false, Qle_bool_iff. split.
    + intros H. right. exists q. split; [done|]. by apply Qnot_le_lt.
    + intros [|(? & [= <-] & H)]; [done|]. by apply Qlt_not_le.
  - split; [by left|done].
  - split; [done|]. by intros [|(? & ? & _)].
  - done.
Qed.

Lemma positive_not_le_zero x : positive x → num_le x (Finite 0) = false.
Proof.
  intros Hpos. apply not_le_zero_positive; [|done].
  intros ->. by destruct Hpos as [|(? & ? & _)].
Qed.

Lemma validate_unfold self :
  _validate self =
  if rejects self Temperature then Raise (range_error Temperature)
  else if rejects self TopP then Raise (range_error TopP)
  else if rejects self TopK then Raise (range_error TopK)
  else if rejects self MaxOutputTokens then Raise (range_error MaxOutputTokens)
  else Ok tt.
Proof. done. Qed.

Lemma passes_not_rejected self p : passes self p → rejects self p = false.
Proof.
  unfold passes.
  destruct p; cbn [param_value rejects valid]; intros H.
  - destruct (temperature self) as [x|]; [|done]. specialize (H x eq_refl).
    apply negb_false_iff. by apply between_in_range.
  - destruct (top_p self) as [x|]; [|done]. specialize (H x eq_refl).
    apply negb_false_iff. by apply between_in_range.
  - destruct (top_k self) as [x|]; [|done]. specialize (H x eq_refl).
    apply negb_false_iff. by apply between_in_range.
  - destruct (max_output_tokens self) as [x|]; [|done].
    specialize (H x eq_refl). by apply positive_not_le_zero.
Qed.

Lemma not_rejected_passes self p :
  max_output_tokens self ≠ Some NaN → rejects self p = false → passes self p.
Proof.
  intros Hnan. unfold passes. destruct p; simpl; intros H x Hx;
    rewrite Hx in H; simpl in H.
  - apply between_in_range. by apply negb_false_iff.
  - apply between_in_range. by apply negb_false_iff.
  - apply between_in_range. by apply negb_false_iff.
  - apply not_le_zero_positive; [|done]. intros ->. by rewrite Hx in Hnan.
Qed.

Lemma range_error_inj p p' :
  @Raise unit (range_error p) = Raise (range_error p') → p = p'.
Proof. by destruct p, p'; intros H; vm_compute in H. Qed.

End ValidateFacts.

Section ValidateClaims.
Implicit Types (self : BaseGoogle) (p : param) (x : number).

(** C5: for an adapter whose [max_output_tokens] is not a NaN (it is an
    [int] by its annotation), [_validate] succeeds exactly when every
    parameter that is set is valid: [temperature] and [top_p] between 0
    and 1, [top_k] between 0 and 100, [max_output_tokens] above zero.
    Otherwise the first parameter out of range, in the order temperature,
    top_p, top_k, max_output_tokens, decides the error, a [ValueError]
    whose message begins with the name of that parameter.  After
    [_set_params(temperature=1.5)] on a new adapter the error is the one
    of [temperature]. *)
Theorem C5_validate_ranges self :
  max_output_tokens self ≠ Some NaN →
  (_validate self = Ok tt ↔ ∀ p, passes self p)
  ∧ (∀ p, ¬ passes self p →
     (∀ p', param_index p' < param_index p → passes self p') →
     _validate self = Raise (range_error p))
  ∧ (∀ p, startswith (param_name p) (range_message p) = true)
  ∧ _validate (_set_params {[ py "temperature" := Some (Finite (3 # 2)) ]}
                 BaseGoogle_defaults)
    = Raise (range_error Temperature).
Proof.
  intros Hnan. split_and!.
  - rewrite validate_unfold. split.
    + intros H p. apply not_rejected_passes; [done|].
      by destruct p;
        destruct (rejects self Temperature), (rejects self TopP),
          (rejects self TopK), (rejects self MaxOutputTokens).
    + intros H. by rewrite !passes_not_rejected.
  - intros p Hbad Hbefore. rewrite validate_unfold.
    assert (rejects self p = true) as Hp.
    { apply not_false_iff_true. intros H. by apply Hbad, not_rejected_passes. }
    destruct p; rewrite ?(passes_not_rejected self Temperature),
      ?(passes_not_rejected self TopP), ?(passes_not_rejected self TopK)
      by (apply Hbefore; simpl; lia); by rewrite Hp.
  - by intros [].
  - by vm_compute.
Qed.

Lemma C5_validate_ranges_witness :
  _validate BaseGoogle_defaults = Ok tt
  ∧ _validate (_set_params {[ py "temperature" := Some (Finite (3 # 2)) ]}
                 BaseGoogle_defaults)
    = Raise (range_error Temperature).
Proof.
  pose proof (C5_validate_ranges BaseGoogle_defaults ltac:(discriminate)) as H.
  split; [|exact (proj2 (proj2 (proj2 H)))].
  apply (proj1 H). intros p x.
  destruct p; intros [= <-]; [eexists; split; [reflexivity|]..|right; eexists; split; [reflexivity|]];
    unfold Qle, Qlt; simpl; lia.
Defined.

(** C9: a parameter that is [None] is not checked: its condition is
    false, [_validate] never raises the error of that parameter, and the
    outcome is the one for any valid value in its place; when all four are
    [None], [_validate] succeeds. *)
Theorem C9_unset_parameters self :
  (∀ p, param_value self p = None →
     rejects self p = false
     ∧ _validate self ≠ Raise (range_error p)
     ∧ ∀ x, valid p x →
         _validate (setattr self (param_name p) (Some x)) = _validate self)
  ∧ ((∀ p, param_value self p = None) → _validate self = Ok tt).
Proof.
  split.
  - intros p Hnone.
    assert (rejects self p = false) as Hp.
    { destruct p; cbn [param_value rejects] in *; by rewrite Hnone. }
    split_and!; [done| |].
    + rewrite validate_unfold. intros H.
      destruct (rejects self Temperature) eqn:H1;
        [apply range_error_inj in H as <-; congruence|].
      destruct (rejects self TopP) eqn:H2;
        [apply range_error_inj in H as <-; congruence|].
      destruct (rejects self TopK) eqn:H3;
        [apply range_error_inj in H as <-; congruence|].
      destruct (rejects self MaxOutputTokens) eqn:H4;
        [apply range_error_inj in H as <-; congruence|done].
    + intros x Hx. rewrite !validate_unfold.
      assert (rejects (setattr self (param_name p) (Some x)) p = false) as Hp'.
      { apply passes_not_rejected. intros y.
        destruct p; vm_compute; by intros [= <-]. }
      destruct p; rewrite Hp in *; rewrite Hp' in *; reflexivity.
  - intros Hnone. rewrite validate_unfold.
    pose proof (Hnone Temperature) as H1. pose proof (Hnone TopP) as H2.
    pose proof (Hnone TopK) as H3. pose proof (Hnone MaxOutputTokens) as H4.
    cbn [param_value rejects] in *. by rewrite H1, H2, H3, H4.
Qed.

Lemma C9_unset_parameters_witness :
  _validate (Google None None None None None) = Ok tt
  ∧ _validate (Google None (Some (Finite 1)) (Some (Finite 500)) None None)
    = _validate (Google None None (Some (Finite 500)) None None).
Proof.
  split.
  - apply (proj2 (C9_unset_parameters (Google None None None None None))).
    by intros [].
  - apply (proj2 (proj2 (proj1
      (C9_unset_parameters (Google None None (Some (Finite 500)) None None))
      Temperature eq_refl)) (Finite 1)).
    exists 1%Q. by vm_compute.
Defined.

End ValidateClaims.

Section SetParamsFacts.
Implicit Types (self : BaseGoogle) (p : param) (key : str).
Implicit Types (value : option number) (kwargs : gmap str (option number)).

Lemma param_name_inj p p' : param_name p = param_name p' → p = p'.
Proof. by destruct p, p'; intros H; vm_compute in H. Qed.

Lemma valid_params_names key : key ∈ _valid_params ↔ ∃ p, key = param_name p.
Proof.
  unfold _valid_params. rewrite !elem_of_cons, elem_of_nil. split.
  - intros [->|[->|[->|[->|[]]]]];
      [by exists Temperature|by exists TopP|by exists TopK|by exists MaxOutputTokens].
  - intros [[] ->]; simpl; tauto.
Qed.

Lemma setattr_same self p value :
  param_value (setattr self (param_name p) value) p = value.
Proof. by destruct p. Qed.

Lemma setattr_other self p p' value :
  p ≠ p' → param_value (setattr self (param_name p) value) p' = param_value self p'.
Proof. by destruct p, p'. Qed.

Lemma setattr_last_prompt self key value :
  last_prompt (setattr self key value) = last_prompt self.
Proof. unfold setattr. by repeat case_decide. Qed.

(** One round of the loop, seen from one parameter. *)
Lemma round_param self key value p :
  param_value (if bool_decide (key ∈ _valid_params) then setattr self key value
               else self) p
  = if decide (key = param_name p) then value else param_value self p.
Proof.
  case_bool_decide as Hkey.
  - apply valid_params_names in Hkey as [p' ->]. case_decide as Hp.
    + apply param_name_inj in Hp as ->. apply setattr_same.
    + apply setattr_other. by intros ->.
  - case_decide as Hp; [|done]. destruct Hkey. apply valid_params_names. eauto.
Qed.

Lemma round_last_prompt self key value :
  last_prompt (if bool_decide (key ∈ _valid_params) then setattr self key value
               else self)
  = last_prompt self.
Proof. case_bool_decide; [apply setattr_last_prompt|done]. Qed.

Lemma BaseGoogle_eq self self' :
  last_prompt self = last_prompt self' →
  (∀ p, param_value self p = param_value self' p) → self = self'.
Proof.
  intros Hl Hp. destruct self, self'.
  pose proof (Hp Temperature). pose proof (Hp TopP).
  pose proof (Hp TopK). pose proof (Hp MaxOutputTokens).
  simpl in *. congruence.
Qed.

Lemma set_params_param kwargs self p :
  param_value (_set_params kwargs self) p
  = default (param_value self p) (kwargs !! param_name p).
Proof.
  unfold _set_params. cbv zeta.
  apply (map_fold_weak_ind (fun r m =>
    param_value r p = default (param_value self p) (m !! param_name p))).
  - by rewrite lookup_empty.
  - intros key value m r Hfresh IH. rewrite round_param, lookup_insert.
    case_decide as Hkey; [done|]. by rewrite IH.
Qed.

Lemma set_params_last_prompt kwargs self :
  last_prompt (_set_params kwargs self) = last_prompt self.
Proof.
  unfold _set_params. cbv zeta.
  apply (map_fold_weak_ind (fun r (m : gmap str (option number)) =>
    last_prompt r = last_prompt self)); [done|].
  intros key value m r _ IH. by rewrite round_last_prompt.
Qed.

(** The same loop run over the items in any order: the keys of a
    dictionary are distinct, and then the order does not show. *)
Lemma set_params_items_param items self p :
  NoDup items.*1 →
  param_value (set_params_items items self) p
  = default (param_value self p)
      ((list_to_map items : gmap str (option number)) !! param_name p).
Proof.
  unfold set_params_items. revert self.
  induction items as [|[key value] items IH]; intros self Hnodup; [done|].
  rewrite fmap_cons in Hnodup. apply NoDup_cons in Hnodup as [Hfresh Hnodup].
  cbn [fold_left fst] in *.
  rewrite IH by done. rewrite round_param. cbn [list_to_map foldr uncurry].
  rewrite lookup_insert. cbn [fst snd]. case_decide as Hkey; [|done].
  subst key. by rewrite (not_elem_of_list_to_map_1 _ _ Hfresh).
Qed.

Lemma set_params_items_last_prompt items self :
  last_prompt (set_params_items items self) = last_prompt self.
Proof.
  unfold set_params_items. revert self.
  induction items as [|[key value] items IH]; intros self; [done|].
  cbn [fold_left]. by rewrite IH, round_last_prompt.
Qed.

Lemma set_params_any_order items self :
  NoDup items.*1 →
  set_params_items items self = _set_params (list_to_map items) self.
Proof.
  intros Hnodup. apply BaseGoogle_eq.
  - by rewrite set_params_items_last_prompt, set_params_last_prompt.
  - intros p. by rewrite set_params_items_param, set_params_param.
Qed.

(** C8: after [_set_params] on the keyword arguments [kwargs] each of the
    four generation parameters holds the value supplied under its name, whatever that
    value is, or its former value when the name is not supplied;
    [last_prompt] is unchanged; a key outside the allow-list changes
    nothing and raises nothing; and the order in which the items are
    visited does not show. *)
Theorem C8_set_params kwargs self :
  (∀ p, param_value (_set_params kwargs self) p
        = match kwargs !! param_name p with
          | Some value => value
          | None => param_value self p
          end)
  ∧ last_prompt (_set_params kwargs self) = last_prompt self
  ∧ (∀ key value, key ∉ _valid_params →
       _set_params (<[key := value]> kwargs) self = _set_params kwargs self)
  ∧ (∀ items, NoDup items.*1 → list_to_map items = kwargs →
       set_params_items items self = _set_params kwargs self).
Proof.
  split_and!.
  - intros p. rewrite set_params_param. by destruct (kwargs !! param_name p).
  - apply set_params_last_prompt.
  - intros key value Hkey. apply BaseGoogle_eq.
    + by rewrite !set_params_last_prompt.
    + intros p. rewrite !set_params_param, lookup_insert_ne; [done|].
      intros ->. apply Hkey, valid_params_names. eauto.
  - intros items Hnodup <-. by apply set_params_any_order.
Qed.

Lemma C8_set_params_witness :
  param_value
    (_set_params {[ py "temperature" := Some (Finite (3 # 2)); py "verbose" := None ]}
       BaseGoogle_defaults) Temperature
  = Some (Finite (3 # 2))
  ∧ param_value
      (_set_params {[ py "temperature" := Some (Finite (3 # 2)); py "verbose" := None ]}
         BaseGoogle_defaults) TopK
    = Some (Finite 40).
Proof.
  pose proof (proj1 (C8_set_params
    {[ py "temperature" := Some (Finite (3 # 2)); py "verbose" := None ]}
    BaseGoogle_defaults)) as H.
  split; [exact (H Temperature)|exact (H TopK)].
Defined.

End SetParamsFacts.

(* ===================================================================== *)
(** * [BaseGoogle.call] and [prepend_system_prompt] *)
(* ===================================================================== *)

Section CallClaims.
Implicit Types (self : BaseGoogle) (instruction : BasePrompt).
Implicit Types (context : option PipelineContext).



(** C6, as the code has it: [prepend_system_prompt] returns the prompt as
    it is when the memory is [None], and for every [Memory] object, with or
    without turns, the system message generated from it followed by the
    prompt.  The prompt is never altered: it ends the result in every
    case.  The result is a function of the prompt, the memory and the
    text of the generated system message, and of nothing else. *)
Theorem C6_prepend_system_prompt (GenerateSystemMessagePrompt : Memory → BasePrompt)
    (prompt : str) (memory : option Memory) :
  (memory = None →
   prepend_system_prompt GenerateSystemMessagePrompt prompt memory = prompt)
  ∧ (∀ m, memory = Some m →
     prepend_system_prompt GenerateSystemMessagePrompt prompt memory
     = get_system_prompt GenerateSystemMessagePrompt m ++ prompt)
  ∧ prompt `suffix_of`
      prepend_system_prompt GenerateSystemMessagePrompt prompt memory
  ∧ (∀ G' : Memory → BasePrompt,
       (∀ m, memory = Some m →
             to_string (G' m) = to_string (GenerateSystemMessagePrompt m)) →
       prepend_system_prompt G' prompt memory
       = prepend_system_prompt GenerateSystemMessagePrompt prompt memory).
Proof.
  split_and!.
  - by intros ->.
  - by intros m ->.
  - destruct memory as [m|]; cbn.
    + by apply suffix_app_r.
    + done.
  - intros G' Hsame. destruct memory as [m|]; [|done].
    cbn. unfold get_system_prompt. by rewrite (Hsame m).
Qed.

Lemma C6_prepend_system_prompt_witness :
  prepend_system_prompt history_header (py "plot it") None = py "plot it"
  ∧ prepend_system_prompt history_header (py "plot it")
      (Some [Turn (py "hello") true])
    = py "Previous conversation: hello" ++ [LF] ++ py "plot it".
Proof.
  split.
  - by apply (proj1 (C6_prepend_system_prompt history_header (py "plot it") None)).
  - by apply (proj1 (proj2 (C6_prepend_system_prompt history_header (py "plot it")
                    (Some [Turn (py "hello") true]))) [Turn (py "hello") true]).
Defined.

(** C6 as stated fails on a memory that holds no turn: the object is
    true all the same, and the code puts the system message in front of
    the prompt where the claim has the prompt returned as it is. *)
Lemma C6_counterexample :
  prepend_system_prompt history_header (py "plot it") (Some [])
  = py "Previous conversation: " ++ [LF] ++ py "plot it"
  ∧ prepend_system_prompt history_header (py "plot it") (Some [])
    ≠ py "plot it".
Proof. split; [by vm_compute|]. vm_compute. discriminate. Qed.

End CallClaims.

(* ===================================================================== *)
(** * Further properties of the polishing and of the extraction *)
(* ===================================================================== *)

Section TagFacts.
Implicit Types (s code body : str).

Lemma tag_match_py body :
  startswith (py "thon") body = false →
  re_match tag_re (py "py" ++ body) = Some (set_group 1 0 2 (MState 2 ∅)).
Proof.
  intros H. unfold re_match, match_at, tag_re. codes.
  destruct body as [|a [|b [|c [|d body]]]]; cbn -[N.eqb] in *;
    repeat match goal with
      | |- context [(?x =? ?y)%N] =>
          lazymatch y with
          | a => idtac | b => idtac | c => idtac | d => idtac
          end;
          destruct (x =? y)%N eqn:?; cbn -[N.eqb] in *
      end; done.
Qed.

Lemma tag_sub_py body :
  startswith (py "thon") body = false → re_sub tag_re [] (py "py" ++ body) = body.
Proof.
  intros H. pose proof (tag_match_py body H) as Hm.
  unfold tag_re. by rewrite (re_sub_anchored_match _ _ [] _ Hm) by (simpl; lia).
Qed.

(** The first substitution of [_polish_code]. *)
Lemma tag_removed code :
  (if re_match tag_re code is Some _ then re_sub tag_re [] code else code)
  = without_tag code.
Proof.
  unfold without_tag.
  destruct (startswith (py "python") code) eqn:Hpython.
  - apply startswith_inv in Hpython as [body ->].
    by rewrite tag_match_python, tag_sub_python.
  - destruct (startswith (py "py") code) eqn:Hpy.
    + apply startswith_inv in Hpy as [body ->].
      assert (startswith (py "thon") body = false) as Hthon by done.
      by rewrite (tag_match_py _ Hthon), (tag_sub_py _ Hthon).
    + by rewrite (tag_nomatch _ Hpy).
Qed.

End TagFacts.

Section StripFacts.
Implicit Types (s t x : str) (c : N).

Lemma lstrip_head s c : head (lstrip s) = Some c → isspace c = false.
Proof.
  induction s as [|a s IH]; [done|]. cbn [lstrip].
  destruct (isspace a) eqn:Ha; [done|]. by intros [= <-].
Qed.

Lemma lstrip_fixed s : (∀ c, head s = Some c → isspace c = false) → lstrip s = s.
Proof. destruct s as [|a s]; [done|]. intros H. cbn. by rewrite (H a). Qed.

Lemma lstrip_suffix s : ∃ k, s = k ++ lstrip s.
Proof.
  induction s as [|a s [k IH]]; [by exists []|]. cbn [lstrip].
  destruct (isspace a); [|by exists []].
  exists (a :: k). cbn. by rewrite <- IH.
Qed.

Lemma rstrip_prefix s : ∃ k, s = rstrip s ++ k.
Proof.
  unfold rstrip. destruct (lstrip_suffix (reverse s)) as [k Hk].
  exists (reverse k). by rewrite <- reverse_app, <- Hk, reverse_involutive.
Qed.

Lemma rstrip_last s c : last (rstrip s) = Some c → isspace c = false.
Proof. unfold rstrip. rewrite last_reverse. apply lstrip_head. Qed.

Lemma rstrip_fixed s : (∀ c, last s = Some c → isspace c = false) → rstrip s = s.
Proof.
  intros H. unfold rstrip. rewrite lstrip_fixed; [apply reverse_involutive|].
  intros c. rewrite head_reverse. apply H.
Qed.

Lemma strip_trimmed s : trimmed (strip s).
Proof.
  unfold strip. split; [|apply rstrip_last].
  intros c Hc. apply (lstrip_head s).
  destruct (rstrip_prefix (lstrip s)) as [k Hk]. rewrite Hk.
  destruct (rstrip (lstrip s)); [done|]. done.
Qed.

Lemma strip_fixed s : trimmed s → strip s = s.
Proof.
  intros [Hhead Hlast]. unfold strip.
  by rewrite (lstrip_fixed _ Hhead), (rstrip_fixed _ Hlast).
Qed.

Lemma strip_idempotent s : strip (strip s) = strip s.
Proof. apply strip_fixed, strip_trimmed. Qed.

Lemma infix_refl s : infix s s.
Proof. exists [], []. by rewrite app_nil_r. Qed.

Lemma infix_trans x t s : infix x t → infix t s → infix x s.
Proof.
  intros (a & b & ->) (a' & b' & ->). exists (a' ++ a), (b ++ b').
  by rewrite <- !app_assoc.
Qed.

Lemma strip_infix s : infix (strip s) s.
Proof.
  unfold strip. destruct (lstrip_suffix s) as [k Hk].
  destruct (rstrip_prefix (lstrip s)) as [k' Hk'].
  exists k, k'. by rewrite <- Hk'.
Qed.

Lemma drop_infix n s : infix (drop n s) s.
Proof. exists (take n s), []. by rewrite app_nil_r, take_drop. Qed.

End StripFacts.

Section PolishSpec.
Implicit Types (s code inner tail sep response : str).

Lemma polish_cases code :
  (∃ inner tail, quoted (without_tag code) inner tail
                 ∧ _polish_code code = strip inner)
  ∨ ((∀ inner tail, ¬ quoted (without_tag code) inner tail)
     ∧ _polish_code code = strip (without_tag code)).
Proof.
  unfold _polish_code. rewrite tag_removed.
  destruct (re_match quoted_re (without_tag code)) as [st|] eqn:Hm.
  - left. destruct (quoted_inv _ _ Hm) as (inner & tail & Hq).
    exists inner, tail. split; [done|].
    rewrite (quoted_sub _ _ _ Hq).
    apply strip_app_space. by destruct Hq as (_ & _ & [-> | ->]).
  - right. split; [|done]. intros inner tail Hq.
    by rewrite (quoted_match _ _ _ Hq) in Hm.
Qed.

Lemma quoted_unique code inner tail inner' tail' :
  quoted code inner tail → quoted code inner' tail' → inner = inner'.
Proof.
  intros Hq Hq'. pose proof (quoted_sub _ _ _ Hq) as H.
  rewrite (quoted_sub _ _ _ Hq') in H.
  destruct Hq as (_ & Hin & Ht), Hq' as (_ & Hin' & Ht').
  destruct Ht as [-> | ->], Ht' as [-> | ->]; rewrite ?app_nil_r in H.
  - done.
  - subst inner. destruct Hin. apply elem_of_app. right. by left.
  - subst inner'. destruct Hin'. apply elem_of_app. right. by left.
  - by apply app_inv_tail in H.
Qed.

(** X1: what [_polish_code] returns, for every text: the language tag
    [python], or else [py], is dropped from the start; if what remains is
    one line between two backticks, possibly ended by a newline, the text
    between them is kept; and white space is stripped at both ends. *)
Theorem X1_polish_code_spec code :
  (∀ inner tail, quoted (without_tag code) inner tail →
     _polish_code code = strip inner)
  ∧ ((∀ inner tail, ¬ quoted (without_tag code) inner tail) →
     _polish_code code = strip (without_tag code)).
Proof.
  destruct (polish_cases code) as [(inner & tail & Hq & Hp)|[Hno Hp]]; split.
  - intros inner' tail' Hq'. by rewrite <- (quoted_unique _ _ _ _ _ Hq Hq').
  - intros Hno. by destruct (Hno inner tail).
  - intros inner tail Hq. by destruct (Hno inner tail).
  - done.
Qed.

Lemma X1_polish_code_spec_witness :
  _polish_code (py "py`print(1)`" ++ [LF]) = py "print(1)"
  ∧ _polish_code (py "python3 " ++ [LF] ++ py " x ") = py "3 " ++ [LF] ++ py " x".
Proof.
  split.
  - apply (proj1 (X1_polish_code_spec (py "py`print(1)`" ++ [LF]))
             (py "print(1)") [LF]).
    split_and!; [done| |by right].
    by apply (bool_decide_eq_false_1 (LF ∈ py "print(1)")).
  - apply (proj2 (X1_polish_code_spec (py "python3 " ++ [LF] ++ py " x "))).
    intros inner tail [H _]. discriminate H.
Defined.

Lemma without_tag_infix code : infix (without_tag code) code.
Proof.
  unfold without_tag. repeat case_match; auto using drop_infix, infix_refl.
Qed.

Lemma polish_infix code : infix (_polish_code code) code.
Proof.
  destruct (polish_cases code) as [(inner & tail & Hq & ->)|[_ ->]].
  - eapply infix_trans; [apply strip_infix|].
    eapply infix_trans; [|apply without_tag_infix].
    destruct Hq as (-> & _). by exists [BACKTICK], (BACKTICK :: tail).
  - eapply infix_trans; [apply strip_infix|apply without_tag_infix].
Qed.

Lemma polish_trimmed code : trimmed (_polish_code code).
Proof. unfold _polish_code. apply strip_trimmed. Qed.

Lemma startswith_app_true sep s t :
  startswith sep s = true → startswith sep (s ++ t) = true.
Proof.
  intros [k ->]%startswith_inv. rewrite <- app_assoc. apply startswith_app.
Qed.

(** A text in which [sep] does not occur has no part in which it does. *)
Lemma find_infix_None sep x s : find sep s = None → infix x s → find sep x = None.
Proof.
  intros Hnone (a & b & ->).
  destruct (find sep x) as [i|] eqn:Hfind; [|done].
  destruct (find_Some _ _ _ Hfind) as (Hocc & Hi & _).
  pose proof (find_None _ _ (length a + i) Hnone) as Hno.
  rewrite drop_app_add', drop_app_le in Hno by done.
  by rewrite (startswith_app_true _ _ b Hocc) in Hno.
Qed.

(** Before its first occurrence in [s], [sep] does not occur. *)
Lemma find_take_first sep s j :
  sep ≠ [] → find sep s = Some j → find sep (take j s) = None.
Proof.
  intros Hsep Hfind. destruct (find_Some _ _ _ Hfind) as (_ & Hj & Hlow).
  destruct (find sep (take j s)) as [k|] eqn:Hk; [|done].
  destruct (find_Some _ _ _ Hk) as (Hocc & Hklen & _).
  pose proof (startswith_length _ _ Hocc) as Hlen.
  rewrite length_drop, length_take in Hlen. rewrite length_take in Hklen.
  assert (0 < length sep) by (destruct sep; [done|simpl; lia]).
  exfalso. pose proof (Hlow k ltac:(lia)) as Hfalse.
  rewrite <- (take_drop j s) in Hfalse.
  rewrite drop_app_le in Hfalse by (rewrite length_take; lia).
  by rewrite (startswith_app_true _ _ _ Hocc) in Hfalse.
Qed.

Lemma chosen_no_separator response sep :
  sep ≠ [] → find sep (chosen response sep) = None.
Proof.
  intros Hsep. unfold chosen.
  destruct (find sep response) as [i|] eqn:Hfind; [|done].
  unfold after_first.
  destruct (find sep (drop (i + length sep) response)) as [j|] eqn:Hrest;
    [|done].
  by apply find_take_first.
Qed.

End PolishSpec.

(* ===================================================================== *)
(** * More on [_extract_code] and [generate_code] *)
(* ===================================================================== *)

Section ExtractMore.
Implicit Types (ast_parse : str → result unit).
Implicit Types (s code body rest pre sep response : str) (e : exn).

Lemma extract_Ok_inv ast_parse response sep code :
  _extract_code ast_parse response sep = Ok code →
  sep ≠ [] ∧ code = _polish_code (chosen response sep) ∧ ast_parse code = Ok tt.
Proof.
  destruct sep as [|c sep].
  - by rewrite extract_validated, candidate_empty_separator.
  - rewrite extract_chosen by done. unfold validated.
    destruct (ast_parse _) as [[]|e] eqn:Hparse; [|by destruct e].
    intros [= <-]. by rewrite Hparse.
Qed.

(** X2: [_extract_code] returns nothing but parsed code: when it returns
    [code], the separator is not empty, [code] is the polished form of the
    text chosen by the separator, and [ast.parse] accepted [code]. *)
Theorem X2_extract_returns_parsed ast_parse response sep code :
  _extract_code ast_parse response sep = Ok code →
  sep ≠ [] ∧ code = _polish_code (chosen response sep) ∧ ast_parse code = Ok tt.
Proof.
  intros Hcode. destruct sep as [|c sep].
  - by rewrite extract_validated, candidate_empty_separator in Hcode.
  - rewrite extract_chosen in Hcode by done. unfold validated in Hcode.
    destruct (ast_parse _) as [[]|e] eqn:Hparse; [|by destruct e].
    injection Hcode as <-. by rewrite Hparse.
Qed.

Lemma X2_extract_returns_parsed_witness :
  default_separator ≠ []
  ∧ py "f(1)"
    = _polish_code (chosen (py "Sure: ```py" ++ [LF] ++ py "f(1)```") default_separator)
  ∧ expr_parse (py "f(1)") = Ok tt.
Proof.
  apply (X2_extract_returns_parsed expr_parse
           (py "Sure: ```py" ++ [LF] ++ py "f(1)```") default_separator (py "f(1)")).
  vm_compute. reflexivity.
Defined.

(** X3: the code that [_extract_code] returns has no white space at its
    start or at its end, and stripping it again changes nothing. *)
Theorem X3_extract_returns_trimmed ast_parse response sep code :
  _extract_code ast_parse response sep = Ok code →
  trimmed code ∧ strip code = code.
Proof.
  intros (_ & -> & _)%extract_Ok_inv.
  split; [apply polish_trimmed|apply strip_fixed, polish_trimmed].
Qed.

Lemma X3_extract_returns_trimmed_witness :
  trimmed (py "print(1+1)") ∧ strip (py "print(1+1)") = py "print(1+1)".
Proof.
  apply (X3_extract_returns_trimmed expr_parse
           (py "```python" ++ [LF] ++ py "  print(1+1) " ++ [LF] ++ py "```")
           default_separator).
  vm_compute. reflexivity.
Defined.

(** X4: the code that [_extract_code] returns does not contain the
    separator. *)
Theorem X4_extract_returns_no_separator ast_parse response sep code :
  _extract_code ast_parse response sep = Ok code →
  contains sep code = false.
Proof.
  intros (Hsep & -> & _)%extract_Ok_inv. unfold contains.
  rewrite (find_infix_None sep _ (chosen response sep));
    [done|by apply chosen_no_separator|apply polish_infix].
Qed.

Lemma X4_extract_returns_no_separator_witness :
  contains default_separator (py "f(1)") = false.
Proof.
  apply (X4_extract_returns_no_separator expr_parse
           (py "```py" ++ [LF] ++ py "f(1)```g(2)```") default_separator).
  vm_compute. reflexivity.
Defined.

(** X5: an exception of [ast.parse] that is not a [SyntaxError] is not
    caught: [_extract_code] raises it as it is, and so does
    [generate_code] when the adapter returned the response. *)
Theorem X5_parser_error_propagates ast_parse response e :
  ast_parse (_polish_code (chosen response default_separator)) = Raise e →
  (∀ msg, e ≠ SyntaxError msg) →
  _extract_code ast_parse response default_separator = Raise e
  ∧ ∀ (Self : Type) (adapter : LLM Self) (self self' : Self)
      (instruction : BasePrompt) (context : option PipelineContext),
      call self instruction context = (Ok response, self') →
      generate_code ast_parse self instruction context = (Raise e, self').
Proof.
  intros Hparse Hother.
  assert (_extract_code ast_parse response default_separator = Raise e) as He.
  { rewrite extract_chosen by done. unfold validated. rewrite Hparse.
    destruct e; try done. by destruct (Hother msg). }
  split; [done|].
  intros Self adapter self self' instruction context Hcall.
  unfold generate_code. rewrite Hcall.
  unfold mbind, result_bind, bind. by rewrite He.
Qed.

Lemma X5_parser_error_propagates_witness :
  _extract_code (fun _ => Raise (OtherError (py "RecursionError") []))
    (py "print(1)") default_separator
  = Raise (OtherError (py "RecursionError") []).
Proof.
  apply (X5_parser_error_propagates
           (fun _ => Raise (OtherError (py "RecursionError") [])) (py "print(1)")
           (OtherError (py "RecursionError") [])); [reflexivity|discriminate].
Defined.

(** X6: the exceptions of [_extract_code].  With an empty separator it
    raises the [ValueError] of [str.split], whatever the response and the
    parser.  With any other separator it raises [NoCodeFoundError] when
    [ast.parse] raised [SyntaxError] on the candidate, or else the
    exception that [ast.parse] raised; the indexing of the segments never
    fails. *)
Theorem X6_extract_errors ast_parse response :
  _extract_code ast_parse response [] = Raise (ValueError (py "empty separator"))
  ∧ ∀ sep e,
      sep ≠ [] →
      _extract_code ast_parse response sep = Raise e →
      (∃ msg, ast_parse (_polish_code (chosen response sep)) = Raise (SyntaxError msg)
              ∧ e = NoCodeFoundError (py "No code found in the response"))
      ∨ (ast_parse (_polish_code (chosen response sep)) = Raise e
         ∧ ∀ msg, e ≠ SyntaxError msg).
Proof.
  split.
  - by rewrite extract_validated, candidate_empty_separator.
  - intros sep e Hsep. rewrite extract_chosen by done. unfold validated.
    destruct (ast_parse _) as [[]|e'] eqn:Hparse; [done|].
    intros He.
    destruct e'; injection He as <-; try (right; by split_and!).
    left. by eexists.
Qed.

Lemma X6_extract_errors_witness :
  (∃ msg, expr_parse (_polish_code (chosen (py "not code at all") default_separator))
          = Raise (SyntaxError msg)
          ∧ NoCodeFoundError (py "No code found in the response")
            = NoCodeFoundError (py "No code found in the response"))
  ∨ (expr_parse (_polish_code (chosen (py "not code at all") default_separator))
     = Raise (NoCodeFoundError (py "No code found in the response"))
     ∧ ∀ msg, NoCodeFoundError (py "No code found in the response") ≠ SyntaxError msg).
Proof.
  apply (proj2 (X6_extract_errors expr_parse (py "not code at all"))
           default_separator); [discriminate|]. vm_compute. reflexivity.
Defined.

(** X7: what stands before the first separator does not show in the
    result. *)
Theorem X7_preamble_ignored ast_parse pre rest sep :
  find sep (pre ++ sep) = Some (length pre) →
  _extract_code ast_parse (pre ++ sep ++ rest) sep
  = _extract_code ast_parse (sep ++ rest) sep.
Proof.
  intros Hpre. destruct sep as [|c sep].
  { rewrite app_nil_r in Hpre. by destruct pre. }
  rewrite !extract_chosen by done. do 2 f_equal. unfold chosen.
  rewrite (find_closing _ _ rest Hpre), find_app_head. unfold after_first.
  rewrite (app_assoc pre), drop_app_length' by (by rewrite length_app).
  by rewrite Nat.add_0_l, drop_app_length.
Qed.

Lemma X7_preamble_ignored_witness :
  _extract_code expr_parse (py "Here you are: ```f(1)```") default_separator
  = _extract_code expr_parse (py "```f(1)```") default_separator.
Proof.
  apply (X7_preamble_ignored expr_parse (py "Here you are: ") (py "f(1)```")
           default_separator).
  vm_compute. reflexivity.
Defined.

Lemma space_without_tag c body :
  isspace c = true → without_tag (c :: body) = c :: body.
Proof.
  intros Hc. unfold without_tag. codes. cbn -[N.eqb].
  by destruct (N.eqb_spec 112 c) as [<-|].
Qed.

Lemma space_not_quoted c body inner tail :
  isspace c = true → ¬ quoted (c :: body) inner tail.
Proof. intros Hc ([= -> _] & _). by vm_compute in Hc. Qed.

Lemma polish_after_space c body :
  isspace c = true → _polish_code (c :: body) = strip body.
Proof.
  intros Hc. unfold _polish_code.
  rewrite tag_removed, space_without_tag by done. rewrite quoted_nomatch.
  - apply (strip_space_app [c]). cbn. by rewrite Hc.
  - intros inner tail. by apply space_not_quoted.
Qed.

Lemma polish_py_space c body :
  isspace c = true → _polish_code (py "py" ++ c :: body) = strip body.
Proof.
  intros Hc. unfold _polish_code. rewrite tag_removed.
  assert (without_tag (py "py" ++ c :: body) = c :: body) as ->.
  { unfold without_tag. codes. cbn -[N.eqb].
    by destruct (N.eqb_spec 116 c) as [<-|]. }
  rewrite quoted_nomatch.
  - apply (strip_space_app [c]). cbn. by rewrite Hc.
  - intros inner tail. by apply space_not_quoted.
Qed.

Lemma chosen_fenced mid rest :
  find default_separator (mid ++ default_separator) = Some (length mid) →
  chosen (default_separator ++ mid ++ default_separator ++ rest) default_separator
  = mid.
Proof.
  intros Hclose. by apply (chosen_between default_separator [] mid rest).
Qed.

(** X8: a fenced block without a language tag, or with the tag [py],
    whose content begins with white space (a newline, say): the code
    returned is the content stripped, as for the tag [python]. *)
Theorem X8_fenced_block_other_tags ast_parse tag c body rest :
  tag = [] ∨ tag = py "py" →
  isspace c = true →
  find default_separator ((tag ++ c :: body) ++ default_separator)
  = Some (length (tag ++ c :: body)) →
  ast_parse (strip body) = Ok tt →
  extracts ast_parse
    (default_separator ++ (tag ++ c :: body) ++ default_separator ++ rest)
    (strip body).
Proof.
  intros Htag Hc Hclose Hparse. apply extracts_intro.
  rewrite extract_chosen by done.
  rewrite chosen_fenced by done.
  destruct Htag as [-> | ->].
  - rewrite app_nil_l, polish_after_space by done. by apply validated_ok.
  - rewrite polish_py_space by done. by apply validated_ok.
Qed.

Lemma X8_fenced_block_other_tags_witness :
  extracts expr_parse (py "```" ++ [LF] ++ py "f(1)" ++ [LF] ++ py "```") (py "f(1)")
  ∧ extracts expr_parse (py "```py" ++ [LF] ++ py "f(1)" ++ [LF] ++ py "```")
      (py "f(1)").
Proof.
  split.
  - apply (X8_fenced_block_other_tags expr_parse [] LF (py "f(1)" ++ [LF]) []);
      [by left|reflexivity|vm_compute; reflexivity|vm_compute; reflexivity].
  - apply (X8_fenced_block_other_tags expr_parse (py "py") LF (py "f(1)" ++ [LF]) []);
      [by right|reflexivity|vm_compute; reflexivity|vm_compute; reflexivity].
Defined.

End ExtractMore.

Section SplitMore.
Implicit Types (s sep x : str) (l : list str).

Lemma split_loop_cons n sep s : ∃ x l, split_loop n sep s = x :: l.
Proof. destruct n; simpl; [by eauto|]. destruct (find sep s); by eauto. Qed.

Lemma find_cut sep s i :
  find sep s = Some i → s = take i s ++ sep ++ drop (i + length sep) s.
Proof.
  intros (Hocc & _ & _)%find_Some.
  apply startswith_inv in Hocc as [t Ht].
  rewrite <- drop_drop, Ht, drop_app_length, <- Ht. by rewrite take_drop.
Qed.

Lemma split_loop_join n sep s : join sep (split_loop n sep s) = s.
Proof.
  revert s. induction n as [|n IH]; intros s; [done|].
  cbn [split_loop]. destruct (find sep s) as [i|] eqn:Hfind; [|done].
  specialize (IH (drop (i + length sep) s)).
  destruct (split_loop_cons n sep (drop (i + length sep) s)) as (x & l & Hx).
  rewrite Hx in *. cbn [join]. cbn [join] in IH. rewrite IH.
  symmetry. by apply find_cut.
Qed.

Lemma split_loop_sep_free n sep s x :
  sep ≠ [] → length s ≤ n → x ∈ split_loop n sep s → find sep x = None.
Proof.
  intros Hsep. revert s. induction n as [|n IH]; intros s Hn.
  - destruct s; [|simpl in Hn; lia]. cbn [split_loop].
    intros ->%list_elem_of_singleton. by apply find_nil_nonempty.
  - cbn [split_loop]. destruct (find sep s) as [i|] eqn:Hfind.
    + intros [->|Hx]%elem_of_cons; [by apply find_take_first|].
      apply (IH (drop (i + length sep) s)); [|done].
      destruct (find_Some _ _ _ Hfind) as (Hocc & Hi & _).
      apply startswith_length in Hocc. rewrite length_drop in *.
      assert (0 < length sep) by (destruct sep; [done|simpl; lia]). lia.
    + by intros ->%list_elem_of_singleton.
Qed.

(** X15: how [_extract_code] uses [split].  The segments lose nothing
    of the response and hold no separator: joined with the separator they
    give the response back, and the separator occurs in none of them.
    When the separator occurs in the response there is a segment at index
    1 and the candidate is that segment, polished; when it does not, the
    response is the only segment and the candidate is the response,
    polished. *)
Theorem X15_split_join sep response l :
  split sep response = Some l →
  join sep l = response
  ∧ (∀ x, x ∈ l → contains sep x = false)
  ∧ (contains sep response = true →
     ∃ x, l !! 1 = Some x ∧ candidate response sep = Ok (_polish_code x))
  ∧ (contains sep response = false →
     l = [response] ∧ candidate response sep = Ok (_polish_code response)).
Proof.
  intros Hsplit.
  assert (sep ≠ []) as Hsep by (by intros ->).
  pose proof Hsplit as Hl.
  destruct sep as [|c sep]; [done|]. injection Hl as <-. split_and!.
  - apply split_loop_join.
  - intros x Hx. unfold contains.
    by rewrite (split_loop_sep_free (length response) (c :: sep) response x).
  - unfold contains. intros [i Hi]%bool_decide_eq_true.
    destruct (split_loop_second (c :: sep) response i Hsep Hi) as [tl Htl].
    exists (after_first (c :: sep) response i). split; [by rewrite Htl|].
    unfold candidate, contains.
    rewrite bool_decide_eq_true_2 by eauto. by rewrite Hsplit, Htl.
  - unfold contains. intros Hno%bool_decide_eq_false.
    assert (find (c :: sep) response = None) as Hnone.
    { destruct (find (c :: sep) response) eqn:E; [|done]. destruct Hno. eauto. }
    split; [by apply split_loop_absent|].
    unfold candidate, contains.
    rewrite bool_decide_eq_false_2; [done|]. rewrite Hnone. by intros [? ?].
Qed.

Lemma X15_split_join_witness :
  join (py "```") [py "a"; py "f(1)"; []] = py "a```f(1)```"
  ∧ (∀ x, x ∈ [py "a"; py "f(1)"; []] → contains (py "```") x = false)
  ∧ (contains (py "```") (py "a```f(1)```") = true →
     ∃ x, [py "a"; py "f(1)"; []] !! 1 = Some x
          ∧ candidate (py "a```f(1)```") (py "```") = Ok (_polish_code x))
  ∧ (contains (py "```") (py "a```f(1)```") = false →
     [py "a"; py "f(1)"; []] = [py "a```f(1)```"]
     ∧ candidate (py "a```f(1)```") (py "```") = Ok (_polish_code (py "a```f(1)```"))).
Proof.
  apply (X15_split_join (py "```") (py "a```f(1)```")). vm_compute. reflexivity.
Defined.

End SplitMore.

(* ===================================================================== *)
(** * More on the generation parameters *)
(* ===================================================================== *)

Section ParamsMore.
Implicit Types (self : BaseGoogle) (p : param) (x : number).
Implicit Types (kwargs : gmap str (option number)).

Lemma set_params_effective kwargs self p :
  param_value (_set_params kwargs self) p = effective kwargs self p.
Proof.
  rewrite set_params_param. unfold effective.
  by destruct (kwargs !! param_name p).
Qed.

(** X9: two rounds of [_set_params] are one round with the later
    keyword arguments laid over the earlier ones; in particular a round
    repeated changes nothing more. *)
Theorem X9_set_params_compose kwargs1 kwargs2 self :
  _set_params kwargs2 (_set_params kwargs1 self)
  = _set_params (kwargs2 ∪ kwargs1) self
  ∧ _set_params kwargs1 (_set_params kwargs1 self) = _set_params kwargs1 self.
Proof.
  assert (∀ k1 k2,
    _set_params k2 (_set_params k1 self) = _set_params (k2 ∪ k1) self) as H.
  { intros k1 k2. apply BaseGoogle_eq.
    - by rewrite !set_params_last_prompt.
    - intros p. rewrite !set_params_param, lookup_union.
      by destruct (k2 !! param_name p), (k1 !! param_name p). }
  split; [apply H|]. by rewrite H, (idemp (∪)).
Qed.

(** X10: keyword arguments that name none of the four parameters leave
    the adapter as it is; so do no keyword arguments at all. *)
Theorem X10_set_params_unknown_keys kwargs self :
  (∀ key, key ∈ _valid_params → kwargs !! key = None) →
  _set_params kwargs self = self.
Proof.
  intros Hnone. apply BaseGoogle_eq.
  - apply set_params_last_prompt.
  - intros p. rewrite set_params_param, Hnone; [done|].
    apply valid_params_names. eauto.
Qed.

Lemma X10_set_params_unknown_keys_witness :
  _set_params {[ py "verbose" := Some (Finite 1); py "Temperature" := None ]}
    BaseGoogle_defaults
  = BaseGoogle_defaults
  ∧ _set_params ∅ BaseGoogle_defaults = BaseGoogle_defaults.
Proof.
  split; apply X10_set_params_unknown_keys; intros key Hkey;
    repeat (apply elem_of_cons in Hkey as [->|Hkey]; [reflexivity|]);
    by apply elem_of_nil in Hkey.
Defined.

Lemma validate_Ok_iff self :
  max_output_tokens self ≠ Some NaN →
  _validate self = Ok tt ↔ ∀ p, passes self p.
Proof.
  intros Hnan. rewrite validate_unfold. split.
  - intros H p. apply not_rejected_passes; [done|].
    by destruct p;
      destruct (rejects self Temperature), (rejects self TopP),
        (rejects self TopK), (rejects self MaxOutputTokens).
  - intros H. by rewrite !passes_not_rejected.
Qed.

(** X11: [_validate] after [_set_params] succeeds exactly when each
    parameter is valid in the value supplied for it, or in the value the
    adapter had when none is supplied; a supplied [None] passes.  The
    resulting [max_output_tokens] is taken not to be a NaN. *)
Theorem X11_set_params_then_validate kwargs self :
  effective kwargs self MaxOutputTokens ≠ Some NaN →
  _validate (_set_params kwargs self) = Ok tt
  ↔ ∀ p x, effective kwargs self p = Some x → valid p x.
Proof.
  intros Hnan. rewrite validate_Ok_iff.
  - unfold passes. by setoid_rewrite set_params_effective.
  - by rewrite <- (set_params_effective kwargs self MaxOutputTokens) in Hnan.
Qed.

Lemma X11_set_params_then_validate_witness :
  _validate (_set_params {[ py "temperature" := None; py "top_k" := Some (Finite 7) ]}
               BaseGoogle_defaults)
  = Ok tt.
Proof.
  refine (proj2 (X11_set_params_then_validate
            {[ py "temperature" := None; py "top_k" := Some (Finite 7) ]}
            BaseGoogle_defaults _) _); [vm_compute; discriminate|].
  intros [] x Hx; vm_compute in Hx; [discriminate Hx|..];
    injection Hx as <-; cbn [valid];
    [eexists; split; [reflexivity|]..|right; eexists; split; [reflexivity|]];
    unfold Qle, Qlt; simpl; lia.
Defined.

(** X12: a NaN for [temperature], [top_p] or [top_k] is out of range and
    raises the error of that parameter when the ones before it pass; a
    NaN for [max_output_tokens] is not below zero and passes. *)
Theorem X12_validate_nan self :
  (∀ p, p ≠ MaxOutputTokens → param_value self p = Some NaN →
     (∀ p', param_index p' < param_index p → passes self p') →
     _validate self = Raise (range_error p))
  ∧ (max_output_tokens self = Some NaN →
     (∀ p, p ≠ MaxOutputTokens → passes self p) →
     _validate self = Ok tt).
Proof.
  split.
  - intros p Hp Hnan Hbefore. rewrite validate_unfold.
    destruct p; [| | |done];
      rewrite ?(passes_not_rejected self Temperature),
        ?(passes_not_rejected self TopP), ?(passes_not_rejected self TopK)
        by (apply Hbefore; simpl; lia);
      cbn [param_value rejects] in *; by rewrite Hnan.
  - intros Hnan Hpass. rewrite validate_unfold.
    rewrite !passes_not_rejected by (by apply Hpass).
    cbn [rejects]. by rewrite Hnan.
Qed.

Lemma X12_validate_nan_witness :
  _validate (Google None (Some (Finite 0)) (Some NaN) None None)
  = Raise (range_error TopP)
  ∧ _validate (Google None None None None (Some NaN)) = Ok tt.
Proof.
  split.
  - apply (proj1 (X12_validate_nan
                    (Google None (Some (Finite 0)) (Some NaN) None None)) TopP);
      [done|done|].
    intros [] Hlt; simpl in Hlt; try lia.
    intros x [= <-]. exists 0%Q. by vm_compute.
  - apply (proj2 (X12_validate_nan (Google None None None None (Some NaN))));
      [done|]. intros [] Hp; [by intros x..|done].
Defined.

End ParamsMore.

(* ===================================================================== *)
(** * [generate_code] on a Google adapter *)
(* ===================================================================== *)

Section GoogleGenerate.
Implicit Types (self : BaseGoogle) (instruction : BasePrompt).
Implicit Types (context : option PipelineContext).

(** X13: [generate_code] on a Google adapter whose [_generate_text] does
    not assign [last_prompt]: whatever the outcome, [last_prompt] holds
    the prompt text afterwards and the adapter is the one the provider
    left; an exception of the provider is raised as it is, without any
    extraction; an answer of the provider goes through [_extract_code]
    with the default separator. *)
Theorem X13_generate_code_google (ast_parse : str → result unit)
    (_generate_text : BaseGoogle → str → option Memory → result str * BaseGoogle)
    self instruction context :
  (∀ self prompt memory,
     last_prompt (_generate_text self prompt memory).2 = last_prompt self) →
  let prompt := to_string instruction in
  let memory := match context with Some c => memory c | None => None end in
  let answer := _generate_text (set_last_prompt self (Some prompt)) prompt memory in
  let out :=
    generate_code ast_parse (H := BaseGoogle_LLM _generate_text)
      self instruction context in
  last_prompt out.2 = Some prompt
  ∧ out.2 = answer.2
  ∧ (∀ e, answer.1 = Raise e → out.1 = Raise e)
  ∧ (∀ response, answer.1 = Ok response →
       out.1 = _extract_code ast_parse response default_separator).
Proof.
  intros Hframe prompt memory answer out.
  assert (out.2 = answer.2) as Hstate.
  { unfold out, generate_code, call, BaseGoogle_LLM, BaseGoogle_call.
    fold prompt memory answer. by destruct answer. }
  split_and!.
  - rewrite Hstate. unfold answer. by rewrite Hframe.
  - done.
  - intros e He. unfold out, generate_code, call, BaseGoogle_LLM, BaseGoogle_call.
    fold prompt memory answer. destruct answer as [r s]. simpl in *. by subst r.
  - intros response Hr.
    unfold out, generate_code, call, BaseGoogle_LLM, BaseGoogle_call.
    fold prompt memory answer. destruct answer as [r s]. simpl in *. by subst r.
Qed.

Lemma X13_generate_code_google_witness :
  last_prompt
    (generate_code expr_parse
       (H := BaseGoogle_LLM (constant_provider (Ok (py "not code at all"))))
       BaseGoogle_defaults (Prompt (py "plot it")) None).2
  = Some (py "plot it").
Proof.
  apply (X13_generate_code_google expr_parse
           (constant_provider (Ok (py "not code at all")))
           BaseGoogle_defaults (Prompt (py "plot it")) None).
  reflexivity.
Defined.

End GoogleGenerate.

Section Excerpts.
Implicit Types (s sep x response code : str).

Lemma take_infix n s : infix (take n s) s.
Proof. exists [], (drop n s). by rewrite take_drop. Qed.

Lemma chosen_infix response sep : infix (chosen response sep) response.
Proof.
  unfold chosen. destruct (find sep response) as [i|]; [|apply infix_refl].
  unfold after_first.
  destruct (find sep (drop (i + length sep) response)) as [j|].
  - eapply infix_trans; [apply take_infix|apply drop_infix].
  - apply drop_infix.
Qed.

(** X14: the code that [_extract_code] returns is an excerpt of the
    response: a run of consecutive characters of it, with nothing added,
    changed or reordered. *)
Theorem X14_extract_returns_excerpt (ast_parse : str → result unit)
    response sep code :
  _extract_code ast_parse response sep = Ok code → infix code response.
Proof.
  intros (_ & -> & _)%extract_Ok_inv.
  eapply infix_trans; [apply polish_infix|apply chosen_infix].
Qed.

Lemma X14_extract_returns_excerpt_witness :
  infix (py "f(1)") (py "Sure: ```py" ++ [LF] ++ py "f(1)```").
Proof.
  apply (X14_extract_returns_excerpt expr_parse
           (py "Sure: ```py" ++ [LF] ++ py "f(1)```") default_separator).
  vm_compute. reflexivity.
Defined.

(** X16: the test [separator in response] of [_extract_code] holds
    exactly when the response is some text, the separator, and some
    text; [find] then gives the length of the shortest such first text. *)
Theorem X16_contains_spec sep s :
  (contains sep s = true ↔ infix sep s)
  ∧ ∀ i, find sep s = Some i →
      (∃ b, s = take i s ++ sep ++ b)
      ∧ ∀ a b, s = a ++ sep ++ b → i ≤ length a.
Proof.
  split.
  - unfold contains. rewrite bool_decide_eq_true. split.
    + intros [i Hi]. exists (take i s), (drop (i + length sep) s).
      by apply find_cut.
    + intros (a & b & ->).
      destruct (find sep (a ++ sep ++ b)) as [i|] eqn:Hfind; [by eauto|].
      pose proof (find_None _ _ (length a) Hfind) as Hno.
      by rewrite drop_app_length, startswith_app in Hno.
  - intros i Hi. split; [eexists; by apply find_cut|].
    intros a b Hs. destruct (find_Some _ _ _ Hi) as (_ & _ & Hlow).
    destruct (decide (i ≤ length a)) as [|Hgt]; [done|].
    specialize (Hlow (length a) ltac:(lia)).
    by rewrite Hs, drop_app_length, startswith_app in Hlow.
Qed.

End Excerpts.

(* ===================================================================== *)
(** * The methods on concrete inputs *)
(* ===================================================================== *)

Section Examples.

Example split_fence :
  split (py "```") (py "```python" ++ [LF] ++ py "print(1+1)" ++ [LF] ++ py "```")
  = Some [ []; py "python" ++ [LF] ++ py "print(1+1)" ++ [LF]; [] ].
Proof. reflexivity. Qed.

Example strip_example :
  strip ([LF] ++ py "  print(1+1) " ++ [LF]) = py "print(1+1)".
Proof. reflexivity. Qed.

Example polish_quoted_line :
  _polish_code (py "py`print(1)`" ++ [LF]) = py "print(1)".
Proof. by vm_compute. Qed.

Example polish_two_lines :
  _polish_code (py "`a" ++ [LF] ++ py "b`") = py "`a" ++ [LF] ++ py "b`".
Proof. by vm_compute. Qed.

Example extract_fenced_quoted :
  _extract_code expr_parse (py "```python`x`" ++ [LF] ++ py "```") default_separator
  = Ok (py "x").
Proof. by vm_compute. Qed.

Example extract_text_around_fence :
  _extract_code expr_parse
    (py "Here is the code: ```python" ++ [LF] ++ py "f(1)" ++ [LF]
     ++ py "``` and ```more```") default_separator
  = Ok (py "f(1)").
Proof. by vm_compute. Qed.

Example extract_not_code :
  _extract_code expr_parse (py "not code at all") default_separator
  = Raise (NoCodeFoundError (py "No code found in the response")).
Proof. by vm_compute. Qed.

Example extract_empty_separator :
  _extract_code expr_parse (py "print(1)") []
  = Raise (ValueError (py "empty separator")).
Proof. by vm_compute. Qed.

Example extract_parser_error :
  _extract_code (fun _ => Raise (OtherError (py "RecursionError") []))
    (py "print(1)") default_separator
  = Raise (OtherError (py "RecursionError") []).
Proof. by vm_compute. Qed.

(** [generate_code] on a Google adapter: the provider's answer is
    extracted and the prompt is kept in [last_prompt]. *)
Example generate_code_google :
  let provider :=
    constant_provider
      (Ok (py "```python" ++ [LF] ++ py "print(1+1)" ++ [LF] ++ py "```")) in
  generate_code expr_parse (H := BaseGoogle_LLM provider) BaseGoogle_defaults
    (Prompt (py "add one and one")) None
  = (Ok (py "print(1+1)"),
     set_last_prompt BaseGoogle_defaults (Some (py "add one and one"))).
Proof. by vm_compute. Qed.

Example generate_code_base_class :
  generate_code expr_parse (H := LLM_call) tt (Prompt (py "add")) None
  = (Raise (MethodNotImplementedError (py "Call method has not been implemented")),
     tt).
Proof. by vm_compute. Qed.

Example validate_defaults : _validate BaseGoogle_defaults = Ok tt.
Proof. by vm_compute. Qed.

Example validate_order :
  _validate (Google None (Some (Finite 2)) (Some (Finite (-1))) (Some (Finite 101))
               (Some (Finite 0)))
  = Raise (range_error Temperature)
  ∧ _validate (Google None None (Some (Finite (-1))) (Some (Finite 101))
                 (Some (Finite 0)))
    = Raise (range_error TopP)
  ∧ _validate (Google None None None (Some (Finite 101)) (Some (Finite 0)))
    = Raise (range_error TopK)
  ∧ _validate (Google None None None None (Some (Finite 0)))
    = Raise (range_error MaxOutputTokens).
Proof. by vm_compute. Qed.

(** A NaN is out of every interval, and it is not below zero either. *)
Example validate_nan :
  _validate (Google None (Some NaN) None None None) = Raise (range_error Temperature)
  ∧ _validate (Google None None None None (Some NaN)) = Ok tt.
Proof. by vm_compute. Qed.

End Examples.
